(** * FieldKey / function-calling benchmark: a shallow embedding

    This development embeds the scoring harness of [benchmark.py]
    ([_normalize], [_call_matches], [compute_f1], [compute_total_score]) and
    the request pipeline of [server.py] (the regex slot fillers,
    [_keyword_fallback], [_enrich_arguments] and the two routing endpoints)
    and proves properties of them.

    Modelling conventions.
    - A Python [dict] with string keys is a [gmap string _]; a Python [set]
      is a [gset].  Where the source iterates over a dict, the model iterates
      over [map_to_list]; every such loop is shown to be independent of the
      iteration order by the lemma that characterises its result key by key.
    - Python [float]s are modelled twice.  Exact rationals ([Qc]) carry the
      statements that do not depend on rounding (bounds, the values 0 and
      1, orders).  The kernel's primitive binary64 floats ([Binary64]) carry
      the statements on the very number [compute_total_score] returns.
    - [_get_whisper] is modelled as one call running alone and, for calls
      that overlap on the thread pool, step by step under a schedule.
    - Text is ASCII: the whitespace, case and character classes of Python
      are modelled on code points below 128.
    - Argument values are the JSON scalars that the tool schemas of the
      repository use: strings, integers, booleans and null. *)

From Stdlib Require Import Ascii String QArith Qcanon Qround Lqa.
From Stdlib Require PrimFloat Uint63.
From stdpp Require Import base decidable option list gmap strings pretty numbers.

Set Default Proof Using "Type".

(** ** Python strings *)

Module PyStr.

Definition code (c : ascii) : N := N_of_ascii c.

Definition between (lo hi : N) (c : ascii) : bool :=
  ((lo <=? code c) && (code c <=? hi))%N.

(** [str.isspace] on ASCII: tab, newline, vertical tab, form feed,
    carriage return, the four separators 0x1c-0x1f and the space. *)
Definition is_space (c : ascii) : bool :=
  between 9 13 c || between 28 32 c.

Definition is_upper (c : ascii) : bool := between 65 90 c.
Definition is_lower (c : ascii) : bool := between 97 122 c.
Definition is_digit (c : ascii) : bool := between 48 57 c.
Definition is_alpha (c : ascii) : bool := is_upper c || is_lower c.

(** [\w]: letters, digits and the underscore. *)
Definition is_word (c : ascii) : bool :=
  is_alpha c || is_digit c || (code c =? 95)%N.

Definition lower_char (c : ascii) : ascii :=
  if is_upper c then ascii_of_N (code c + 32) else c.

(** [s.lower()] *)
Fixpoint lower (s : string) : string :=
  match s with
  | EmptyString => EmptyString
  | String c s' => String (lower_char c) (lower s')
  end.

(** [s.lstrip(chars)], with the character set given as a predicate. *)
Fixpoint lstrip_chars (p : ascii → bool) (s : string) : string :=
  match s with
  | EmptyString => EmptyString
  | String c s' => if p c then lstrip_chars p s' else s
  end.

(** [s.rstrip(chars)] *)
Fixpoint rstrip_chars (p : ascii → bool) (s : string) : string :=
  match s with
  | EmptyString => EmptyString
  | String c s' =>
      match rstrip_chars p s' with
      | EmptyString => if p c then EmptyString else String c EmptyString
      | r => String c r
      end
  end.

(** [s.strip()] *)
Definition strip (s : string) : string :=
  lstrip_chars is_space (rstrip_chars is_space s).

(** [sub in s] for a one-character [sub]. *)
Fixpoint contains_char (c : ascii) (s : string) : bool :=
  match s with
  | EmptyString => false
  | String d s' => Ascii.eqb c d || contains_char c s'
  end.

(** [sep.join(parts)] *)
Fixpoint join (sep : string) (parts : list string) : string :=
  match parts with
  | [] => EmptyString
  | [p] => p
  | p :: rest => p +:+ sep +:+ join sep rest
  end.

(** [s.startswith(pre)], returning the rest of [s] after [pre]. *)
Fixpoint strip_prefix (pre s : string) : option string :=
  match pre, s with
  | EmptyString, _ => Some s
  | String a pre', String b s' =>
      if Ascii.eqb a b then strip_prefix pre' s' else None
  | String _ _, EmptyString => None
  end.

(** [s.replace(old, "")] for a non-empty [old]: the occurrences are found
    from left to right and do not overlap.  [pending] counts the
    characters of the occurrence found last that are still to be dropped. *)
Fixpoint remove_from (old : string) (pending : nat) (s : string) : string :=
  match s with
  | EmptyString => EmptyString
  | String c s' =>
      match pending with
      | S k => remove_from old k s'
      | O =>
          match strip_prefix old s with
          | Some _ => remove_from old (String.length old - 1) s'
          | None => String c (remove_from old 0 s')
          end
      end
  end.

Definition remove_all (old s : string) : string := remove_from old 0 s.

End PyStr.

(** ** Python values and calls *)

(** The argument values of a function call. *)
Inductive value :=
| VStr (s : string)
| VInt (z : Z)
| VBool (b : bool)
| VNone.

Global Instance value_eq_dec : EqDecision value.
Proof. solve_decision. Defined.

(** The number an [int] or [bool] stands for ([bool] is a subclass of
    [int] in Python: [True == 1]). *)
Definition as_int (v : value) : option Z :=
  match v with
  | VInt z => Some z
  | VBool b => Some (if b then 1 else 0)%Z
  | _ => None
  end.

(** [a == b] *)
Definition py_eq (a b : value) : bool :=
  match a, b with
  | VStr s, VStr t => bool_decide (s = t)
  | VNone, VNone => true
  | _, _ =>
      match as_int a, as_int b with
      | Some x, Some y => bool_decide (x = y)
      | _, _ => false
      end
  end.

(** [a != b] *)
Definition py_ne (a b : value) : bool := negb (py_eq a b).

(** [bool(v)], the truth value that [not v] negates. *)
Definition truthy (v : value) : bool :=
  match v with
  | VStr s => negb (bool_decide (s = EmptyString))
  | VInt z => negb (bool_decide (z = 0%Z))
  | VBool b => b
  | VNone => false
  end.

(** [str(v)] *)
Definition py_str (v : value) : string :=
  match v with
  | VStr s => s
  | VInt z => pretty z
  | VBool true => "True"
  | VBool false => "False"
  | VNone => "None"
  end.

(** A function call [{"name": ..., "arguments": {...}}].  The source reads
    the arguments with [.get("arguments", {})], so the key may be absent. *)
Record call := Call {
  name : string;
  arguments : option (gmap string value);
}.

(** [c.get("arguments", {})] *)
Definition get_arguments (c : call) : gmap string value :=
  default ∅ (arguments c).

(** ** benchmark.py: F1 of a predicted call list *)

(** [_normalize(v)] *)
Definition _normalize (v : value) : value :=
  match v with
  | VStr s => VStr (PyStr.lower (PyStr.strip s))
  | _ => v
  end.

(** The [for key, exp_val in exp_args.items()] loop of [_call_matches]:
    [false] is the early [return False], [true] the final [return True]. *)
Fixpoint match_items (pred_args : gmap string value)
    (items : list (string * value)) : bool :=
  match items with
  | [] => true
  | (key, exp_val) :: rest =>
      match pred_args !! key with
      | None => false
      | Some pred_val =>
          if py_ne (_normalize pred_val) (_normalize exp_val) then false
          else match_items pred_args rest
      end
  end.

(** [_call_matches(predicted, expected)] *)
Definition _call_matches (predicted expected : call) : bool :=
  if negb (bool_decide (name predicted = name expected)) then false
  else
    let pred_args := get_arguments predicted in
    let exp_args := get_arguments expected in
    match_items pred_args (map_to_list exp_args).

(** The inner loop of [compute_f1],
    [for i, pred in enumerate(predicted_calls)], started at index [i]:
    the index at which the loop breaks, if it does. *)
Fixpoint first_unused_match (exp : call) (used : gset nat) (i : nat)
    (preds : list call) : option nat :=
  match preds with
  | [] => None
  | pred :: rest =>
      if bool_decide (i ∉ used) && _call_matches pred exp then Some i
      else first_unused_match exp used (S i) rest
  end.

(** The outer loop of [compute_f1]: the state is [(matched, used)]. *)
Definition match_step (predicted_calls : list call)
    (st : nat * gset nat) (exp : call) : nat * gset nat :=
  let '(matched, used) := st in
  match first_unused_match exp used 0 predicted_calls with
  | Some i => (matched + 1, {[i]} ∪ used)
  | None => (matched, used)
  end.

Definition match_loop (predicted_calls expected_calls : list call)
    : nat * gset nat :=
  foldl (match_step predicted_calls) (0, ∅) expected_calls.

(** An [int] as a number. *)
Definition of_nat (n : nat) : Qc := Qc_of_Z (Z.of_nat n).

(** [not l] for a list. *)
Definition is_empty {A} (l : list A) : bool :=
  match l with [] => true | _ => false end.

(** The closing arithmetic of [compute_f1]. *)
Definition f1_of_counts (matched n_predicted n_expected : nat) : Qc :=
  let precision := (of_nat matched / of_nat n_predicted)%Qc in
  let recall := (of_nat matched / of_nat n_expected)%Qc in
  if bool_decide ((precision + recall)%Qc = Q2Qc 0) then Q2Qc 0
  else (Q2Qc 2 * precision * recall / (precision + recall))%Qc.

(** [compute_f1(predicted_calls, expected_calls)] *)
Definition compute_f1 (predicted_calls expected_calls : list call) : Qc :=
  if is_empty predicted_calls && is_empty expected_calls then Q2Qc 1
  else if is_empty predicted_calls || is_empty expected_calls then Q2Qc 0
  else
    let matched := (match_loop predicted_calls expected_calls).1 in
    f1_of_counts matched (length predicted_calls) (length expected_calls).

(** ** benchmark.py: the composite score

    In exact arithmetic: the numbers are rationals and no operation
    rounds.  [Binary64] below repeats the score with the floats of the
    program. *)

(** One entry of the [results] list of [run_benchmark]; the [predicted] and
    [expected] call lists it also carries are not read by the score. *)
Record result := Result {
  r_name : string;
  difficulty : string;
  total_time_ms : Qc;
  f1 : Qc;
  source : string;
}.

Definition difficulty_weights : list (string * Qc) :=
  [("easy", Q2Qc 0.20); ("medium", Q2Qc 0.30); ("hard", Q2Qc 0.50)].

Definition time_baseline_ms : Qc := Q2Qc 500.

(** [sum(xs)] *)
Definition py_sum (xs : list Qc) : Qc := foldl Qcplus (Q2Qc 0) xs.

(** [max(0, x)]: Python keeps the first argument unless the second is
    strictly greater. *)
Definition max0 (x : Qc) : Qc :=
  if bool_decide (Q2Qc 0 < x)%Qc then x else Q2Qc 0.

(** [[r for r in results if r["difficulty"] == d]] *)
Definition group_of (d : string) (results : list result) : list result :=
  filter (λ r, difficulty r = d) results.

(** The body of the loop of [compute_total_score] for a non-empty group. *)
Definition level_score (group : list result) : Qc :=
  let avg_f1 := (py_sum (f1 <$> group) / of_nat (length group))%Qc in
  let avg_time := (py_sum (total_time_ms <$> group) / of_nat (length group))%Qc in
  let on_device_ratio :=
    (py_sum ((λ _, Q2Qc 1) <$> filter (λ r, source r = "on-device") group)
     / of_nat (length group))%Qc in
  let time_score := max0 (Q2Qc 1 - avg_time / time_baseline_ms)%Qc in
  (Q2Qc 0.60 * avg_f1 + Q2Qc 0.15 * time_score + Q2Qc 0.25 * on_device_ratio)%Qc.

(** [compute_total_score(results)] *)
Definition compute_total_score (results : list result) : Qc :=
  let total_score :=
    foldl (λ total_score '(d, weight),
             let group := group_of d results in
             if is_empty group then total_score
             else (total_score + weight * level_score group)%Qc)
          (Q2Qc 0) difficulty_weights in
  (total_score * Q2Qc 100)%Qc.

(** ** Regular expressions, as Python's [re] matches them

    A backtracking matcher in continuation-passing style: alternatives are
    tried in order, a greedy repetition tries one more iteration before it
    tries the rest of the pattern and a lazy one the other way round, so
    the match found first is the one [re.search] reports. *)

Module Regex.

Inductive regex :=
| Eps
| Cls (p : ascii → bool)                    (* one character of a class *)
| Seq (r1 r2 : regex)
| Alt (r1 r2 : regex)                       (* r1|r2 *)
| Rep (greedy : bool) (lo : nat) (hi : option nat) (r : regex)
| Grp (n : nat) (r : regex)                 (* capturing group n *)
| Eos                                       (* $ *)
| NotAfterWord.                             (* (?<!\w) *)

(** The matcher's position: the character before it, the text after it
    and the groups captured so far. *)
Record mstate := MState {
  prev : option ascii;
  rest : string;
  groups : gmap nat string;
}.

(** The text between the position [from] and the later position [to]. *)
Definition consumed (from to : string) : string :=
  substring 0 (String.length from - String.length to) from.

Definition below (count : nat) (hi : option nat) : bool :=
  match hi with Some h => count <? h | None => true end.

(** [run r st k]: match [r] at [st], then continue with [k].  The
    repetition loop counts its iterations; an iteration must consume
    text, which every repeated body of the patterns below does, so the
    fuel [S (length rest)] is never used up. *)
Fixpoint run (r : regex) (st : mstate) (k : mstate → option mstate)
    {struct r} : option mstate :=
  match r with
  | Eps => k st
  | Cls p =>
      match rest st with
      | String c s' =>
          if p c then k (MState (Some c) s' (groups st)) else None
      | EmptyString => None
      end
  | Seq r1 r2 => run r1 st (λ st1, run r2 st1 k)
  | Alt r1 r2 =>
      match run r1 st k with
      | Some m => Some m
      | None => run r2 st k
      end
  | Rep greedy lo hi r1 =>
      (fix loop (fuel count : nat) (st : mstate) {struct fuel}
           : option mstate :=
         match fuel with
         | O => None
         | S fuel' =>
             let again (_ : unit) :=
               if below count hi then
                 run r1 st (λ st1,
                   if String.length (rest st1) <? String.length (rest st)
                   then loop fuel' (S count) st1 else None)
               else None in
             let leave (_ : unit) :=
               if lo <=? count then k st else None in
             if greedy then
               match again () with Some m => Some m | None => leave () end
             else
               match leave () with Some m => Some m | None => again () end
         end) (S (String.length (rest st))) 0 st
  | Grp n r1 =>
      run r1 st (λ st1,
        k (MState (prev st1) (rest st1)
             (<[n := consumed (rest st) (rest st1)]> (groups st1))))
  | Eos =>
      match rest st with
      | EmptyString => k st
      | String c EmptyString => if Ascii.eqb c "010" then k st else None
      | _ => None
      end
  | NotAfterWord =>
      match prev st with
      | Some c => if PyStr.is_word c then None else k st
      | None => k st
      end
  end.

(** A match object: [group(0)] and the numbered groups. *)
Record rmatch := RMatch {
  whole : string;
  captures : gmap nat string;
}.

(** [m.group(n)] for a group that took part in the match. *)
Definition group (m : rmatch) (n : nat) : string :=
  match n with
  | O => whole m
  | _ => default EmptyString (captures m !! n)
  end.

Definition match_at (r : regex) (before : option ascii) (s : string)
    : option rmatch :=
  match run r (MState before s ∅) Some with
  | Some st => Some (RMatch (consumed s (rest st)) (groups st))
  | None => None
  end.

(** [re.search(r, s)]: the match at the leftmost position that has one. *)
Fixpoint search_from (r : regex) (before : option ascii) (s : string)
    : option rmatch :=
  match match_at r before s with
  | Some m => Some m
  | None =>
      match s with
      | EmptyString => None
      | String c s' => search_from r (Some c) s'
      end
  end.

Definition search (r : regex) (s : string) : option rmatch :=
  search_from r None s.

(** The truth value of [re.search(r, s)]. *)
Definition found (r : regex) (s : string) : bool :=
  match search r s with Some _ => true | None => false end.

(** *** Pattern syntax *)

Definition chr (c : ascii) : regex := Cls (Ascii.eqb c).

(** A letter under [re.IGNORECASE]. *)
Definition chr_ci (c : ascii) : regex :=
  Cls (λ x, Ascii.eqb (PyStr.lower_char x) (PyStr.lower_char c)).

Fixpoint lit_with (one : ascii → regex) (s : string) : regex :=
  match s with
  | EmptyString => Eps
  | String c EmptyString => one c
  | String c s' => Seq (one c) (lit_with one s')
  end.

Definition lit : string → regex := lit_with chr.
Definition lit_ci : string → regex := lit_with chr_ci.

Fixpoint seq (rs : list regex) : regex :=
  match rs with
  | [] => Eps
  | [r] => r
  | r :: rs' => Seq r (seq rs')
  end.

Fixpoint alt (rs : list regex) : regex :=
  match rs with
  | [] => Cls (λ _, false)
  | [r] => r
  | r :: rs' => Alt r (alt rs')
  end.

Definition dot : regex := Cls (λ c, negb (Ascii.eqb c "010")).   (* . *)
Definition ws : regex := Cls PyStr.is_space.                     (* \s *)
Definition ws0 : regex := Rep true 0 None ws.                    (* \s* *)
Definition ws1 : regex := Rep true 1 None ws.                    (* \s+ *)
Definition word : regex := Cls PyStr.is_word.                    (* \w *)
Definition digit : regex := Cls PyStr.is_digit.                  (* \d *)
Definition upper : regex := Cls PyStr.is_upper.                  (* [A-Z] *)
Definition lower : regex := Cls PyStr.is_lower.                  (* [a-z] *)
Definition opt (r : regex) : regex := Rep true 0 (Some 1) r.     (* r? *)
Definition star (r : regex) : regex := Rep true 0 None r.        (* r* *)
Definition plus (r : regex) : regex := Rep true 1 None r.        (* r+ *)
Definition plus_lazy (r : regex) : regex := Rep false 1 None r.  (* r+? *)

(** [w1|w2|...] over literal words, and the same under [re.IGNORECASE]. *)
Definition any_of (ws : list string) : regex := alt (lit <$> ws).
Definition any_of_ci (ws : list string) : regex := alt (lit_ci <$> ws).

End Regex.

(** ** server.py: the slot fillers *)

Import Regex.

(** [args[key] = s] for a string [s]. *)
Definition put (key s : string) (args : gmap string value) : gmap string value :=
  <[key := VStr s]> args.

(** [if m: args[key] = f(m)] *)
Definition put_if (key : string) (m : option rmatch) (f : rmatch → string)
    (args : gmap string value) : gmap string value :=
  match m with
  | Some m => put key (f m) args
  | None => args
  end.

(** [m.group(1).strip()] *)
Definition group1 (m : rmatch) : string := PyStr.strip (group m 1).

Definition is_dot (c : ascii) : bool := Ascii.eqb c ".".

(** r"(?:on|at|for)\s+(?:the\s+)?(.+?(?:door|lock|gate|entrance|exit))" *)
Definition re_location : regex :=
  seq [any_of_ci ["on"; "at"; "for"]; ws1; opt (Seq (lit_ci "the") ws1);
       Grp 1 (Seq (plus_lazy dot)
                  (any_of_ci ["door"; "lock"; "gate"; "entrance"; "exit"]))].

(** r"(deadbolt|knob\s*lock|mortise|padlock|smart\s*lock|lever|cylinder)" *)
Definition re_lock_type : regex :=
  Grp 1 (alt [lit_ci "deadbolt"; seq [lit_ci "knob"; ws0; lit_ci "lock"];
              lit_ci "mortise"; lit_ci "padlock";
              seq [lit_ci "smart"; ws0; lit_ci "lock"];
              lit_ci "lever"; lit_ci "cylinder"]).

Definition _extract_diagnose_args (text : string) : gmap string value :=
  let args := put "symptoms" text ∅ in
  let args := put_if "location" (search re_location text) group1 args in
  put_if "lock_type" (search re_lock_type text) group1 args.

(** [[A-Z][a-z]+] *)
Definition re_capitalized : regex := Seq upper (plus lower).

(** r"(?:for|customer|client)\s+([A-Z][a-z]+(?:\s+[A-Z][a-z]+)?)" *)
Definition re_report_name : regex :=
  seq [any_of ["for"; "customer"; "client"]; ws1;
       Grp 1 (Seq re_capitalized (opt (Seq ws1 re_capitalized)))].

(** r"(rekey|lockout|lock\s*change|install|repair|master\s*key)" *)
Definition re_report_service : regex :=
  Grp 1 (alt [lit_ci "rekey"; lit_ci "lockout";
              seq [lit_ci "lock"; ws0; lit_ci "change"];
              lit_ci "install"; lit_ci "repair";
              seq [lit_ci "master"; ws0; lit_ci "key"]]).

Definition _extract_report_args (text : string) : gmap string value :=
  let args := put "service_type" "service" ∅ in
  let args :=
    match search re_report_name text with
    | Some m => put "customer_name" (group1 m) args
    | None => put "customer_name" "Customer" args
    end in
  put_if "service_type" (search re_report_service text) group1 args.

(** r"(residential\s+rekey|commercial\s+install|auto\s+lockout|rekey|lockout|install)" *)
Definition re_job_type : regex :=
  Grp 1 (alt [seq [lit_ci "residential"; ws1; lit_ci "rekey"];
              seq [lit_ci "commercial"; ws1; lit_ci "install"];
              seq [lit_ci "auto"; ws1; lit_ci "lockout"];
              lit_ci "rekey"; lit_ci "lockout"; lit_ci "install"]).

Definition _extract_checklist_args (text : string) : gmap string value :=
  match search re_job_type text with
  | Some m => put "job_type" (group1 m) ∅
  | None => put "job_type" "general" ∅
  end.

(** r"(?:look\s*up|find|search\s+for)\s+(?:a\s+)?(.+?)(?:\s+for|\s*$)" *)
Definition re_part_query : regex :=
  seq [alt [seq [lit_ci "look"; ws0; lit_ci "up"]; lit_ci "find";
            seq [lit_ci "search"; ws1; lit_ci "for"]];
       ws1; opt (Seq (lit_ci "a") ws1);
       Grp 1 (plus_lazy dot);
       Alt (Seq ws1 (lit_ci "for")) (Seq ws0 Eos)].

(** r"(Schlage|Kwikset|Yale|Medeco|Mul-T-Lock|Baldwin|Sargent)" *)
Definition re_brand : regex :=
  Grp 1 (any_of_ci ["Schlage"; "Kwikset"; "Yale"; "Medeco"; "Mul-T-Lock";
                    "Baldwin"; "Sargent"]).

Definition _extract_part_args (text : string) : gmap string value :=
  let args := put "query" text ∅ in
  let args :=
    put_if "query" (search re_part_query text)
      (λ m, PyStr.rstrip_chars is_dot (group1 m)) args in
  put_if "brand" (search re_brand text) group1 args.

(** r"(?:with|for)\s+(?:Mrs?\.?\s+|Ms\.?\s+)?([A-Z][a-z]+(?:\s+[A-Z][a-z]+)?)" *)
Definition re_followup_name : regex :=
  seq [any_of ["with"; "for"]; ws1;
       opt (Alt (seq [lit "Mr"; opt (chr "s"); opt (chr "."); ws1])
                (seq [lit "Ms"; opt (chr "."); ws1]));
       Grp 1 (Seq re_capitalized (opt (Seq ws1 re_capitalized)))].

Definition weekdays : list string :=
  ["monday"; "tuesday"; "wednesday"; "thursday"; "friday"; "saturday";
   "sunday"].

(** r"(next\s+\w+|tomorrow|today|monday|...|sunday|\w+\s+\d{1,2})" *)
Definition re_date : regex :=
  Grp 1 (alt ([seq [lit_ci "next"; ws1; plus word];
               lit_ci "tomorrow"; lit_ci "today"]
              ++ (lit_ci <$> weekdays)
              ++ [seq [plus word; ws1; Rep true 1 (Some 2) digit]])).

(** r"(?:for|to|about)\s+(.+?)(?:\s+next|\s+on|\s*$)" *)
Definition re_followup_reason : regex :=
  seq [any_of_ci ["for"; "to"; "about"]; ws1;
       Grp 1 (plus_lazy dot);
       alt [Seq ws1 (lit_ci "next"); Seq ws1 (lit_ci "on"); Seq ws0 Eos]].

Definition _extract_followup_args (text : string) : gmap string value :=
  let args := put "date" "TBD" ∅ in
  let args :=
    match search re_followup_name text with
    | Some m =>
        put "customer_name"
          (PyStr.strip
             (PyStr.remove_all "for " (PyStr.remove_all "with " (group m 0))))
          args
    | None => put "customer_name" "Customer" args
    end in
  let args := put_if "date" (search re_date text) group1 args in
  put_if "reason" (search re_followup_reason text) group1 args.

(** r"(?:need|require|requesting)\s+(.+?)(?:\.|$)" *)
Definition re_dispatch_reason : regex :=
  seq [any_of_ci ["need"; "require"; "requesting"]; ws1;
       Grp 1 (plus_lazy dot); Alt (chr ".") Eos].

Definition _extract_dispatch_args (text : string) : gmap string value :=
  let args := put "reason" text ∅ in
  let args := put_if "reason" (search re_dispatch_reason text) group1 args in
  if found (any_of_ci ["emergency"; "urgent"; "asap"; "immediately"]) text
  then put "urgency" "emergency" args
  else if found (any_of_ci ["backup"; "help"; "assist"]) text
  then put "urgency" "high" args
  else put "urgency" "medium" args.

(** The pattern of [re_report_name] with its optional second word
    repeated any number of times (a star in place of the question mark). *)
Definition re_invoice_name : regex :=
  seq [any_of ["for"; "customer"; "client"]; ws1;
       Grp 1 (Seq re_capitalized (star (Seq ws1 re_capitalized)))].

(** r"(?<!\w)([A-Z][a-z]+\s+[A-Z][a-z]+)" *)
Definition re_two_capitalized : regex :=
  Seq NotAfterWord (Grp 1 (seq [re_capitalized; ws1; re_capitalized])).

(** r"(rekey(?:ing)?|lockout|lock\s*change|install(?:ation)?|repair|master\s*key|deadbolt|lock\s+replacement)" *)
Definition re_invoice_service : regex :=
  Grp 1 (alt [Seq (lit_ci "rekey") (opt (lit_ci "ing")); lit_ci "lockout";
              seq [lit_ci "lock"; ws0; lit_ci "change"];
              Seq (lit_ci "install") (opt (lit_ci "ation"));
              lit_ci "repair";
              seq [lit_ci "master"; ws0; lit_ci "key"];
              lit_ci "deadbolt";
              seq [lit_ci "lock"; ws1; lit_ci "replacement"]]).

(** r"\$[\d,]+(?:\.\d{2})?" *)
Definition re_amount : regex :=
  seq [chr "$";
       plus (Cls (λ c, PyStr.is_digit c || Ascii.eqb c ","));
       opt (Seq (chr ".") (Rep true 2 (Some 2) digit))].

(** r"(?:notes?|memo|description)\s*:?\s*(.+?)(?:\.|$)" *)
Definition re_notes : regex :=
  seq [alt [Seq (lit_ci "note") (opt (chr_ci "s")); lit_ci "memo";
            lit_ci "description"];
       ws0; opt (chr ":"); ws0;
       Grp 1 (plus_lazy dot); Alt (chr ".") Eos].

Definition _extract_invoice_args (text : string) : gmap string value :=
  let args := put "service_type" "Locksmith Service" ∅ in
  let args :=
    match search re_invoice_name text with
    | Some m => put "customer_name" (group1 m) args
    | None =>
        match search re_two_capitalized text with
        | Some m => put "customer_name" (group1 m) args
        | None => put "customer_name" "Customer" args
        end
    end in
  let args := put_if "service_type" (search re_invoice_service text) group1 args in
  let args :=
    match search re_amount text with
    | Some m =>
        let raw := group m 0 in
        let raw := if negb (PyStr.contains_char "." raw)
                   then raw +:+ ".00" else raw in
        put "amount" raw args
    | None => put "amount" "$150.00" args
    end in
  put_if "notes" (search re_notes text) group1 args.

(** ** server.py: tools, messages and the keyword fallback *)

(** A tool schema; the description texts are never read by the code
    embedded here and are left out. *)
Record tool := Tool {
  tool_name : string;
  properties : list string;
  required : list string;
}.

Definition LOCKSMITH_TOOLS : list tool :=
  [Tool "diagnose_lock_fault" ["location"; "symptoms"; "lock_type"]
        ["location"; "symptoms"];
   Tool "log_service_report" ["customer_name"; "service_type"; "notes"]
        ["customer_name"; "service_type"];
   Tool "generate_checklist" ["job_type"] ["job_type"];
   Tool "lookup_part" ["query"; "brand"] ["query"];
   Tool "schedule_followup" ["customer_name"; "date"; "reason"]
        ["customer_name"; "date"];
   Tool "contact_dispatch" ["reason"; "urgency"] ["reason"];
   Tool "generate_invoice" ["customer_name"; "service_type"; "amount"; "notes"]
        ["customer_name"; "service_type"]].

(** A chat message; [m.get("role")] may find no role. *)
Record message := Message {
  role : option string;
  content : string;
}.

(** What a router returns; the endpoints read each key with [.get]. *)
Record routing_result := RoutingResult {
  function_calls : option (list call);
  reported_time_ms : option Qc;           (* "total_time_ms" *)
  routed_by : option string;              (* "source" *)
}.

(** An activation rule of [_keyword_fallback]:
    [(pattern, tool_name, extractor, is_cloud)]. *)
Definition rule : Type :=
  regex * string * (string → gmap string value) * bool.

Definition patterns : list rule :=
  [ (alt [lit "diagnos"; lit "jammed"; lit "stuck"; lit "broken";
          seq [lit "won"; opt dot; lit "t turn"]; lit "fault";
          lit "malfunction"; lit "not working"; lit "lock issue"],
     "diagnose_lock_fault", _extract_diagnose_args, false);
    (alt [seq [lit "log"; ws1; lit "service"];
          seq [lit "service"; ws1; lit "report"];
          seq [lit "report"; ws1; lit "for"]; lit "completed";
          seq [lit "finished"; ws1; lit "job"]],
     "log_service_report", _extract_report_args, false);
    (alt [lit "checklist"; seq [lit "pre"; opt dot; lit "job"];
          seq [lit "safety"; ws1; lit "check"]],
     "generate_checklist", _extract_checklist_args, false);
    (alt [seq [lit "look"; ws0; lit "up"]; lit "part";
          seq [lit "key"; ws0; lit "blank"]; lit "hardware";
          lit "component"; seq [lit "model"; ws1; lit "number"]],
     "lookup_part", _extract_part_args, false);
    (alt [lit "schedule"; seq [lit "follow"; opt dot; lit "up"];
          lit "appointment"; seq [lit "next"; ws1; any_of weekdays]],
     "schedule_followup", _extract_followup_args, false);
    (alt [lit "dispatch"; lit "backup"; lit "emergency";
          lit "reinforcement"; seq [lit "send"; ws1; lit "help"]],
     "contact_dispatch", _extract_dispatch_args, false);
    (any_of ["invoice"; "bill"; "charge"; "receipt"; "payment"],
     "generate_invoice", _extract_invoice_args, true) ].

(** [" ".join(m["content"] for m in messages if m.get("role") == "user")] *)
Definition user_text_of (messages : list message) : string :=
  PyStr.join " " (content <$> filter (λ m, role m = Some "user") messages).

(** The loop of [_keyword_fallback] over [patterns]; the state is
    [(calls, needs_cloud)]. *)
Definition fallback_step (tool_names : gset string) (user_text text_lower : string)
    (st : list call * bool) (r : rule) : list call * bool :=
  let '(calls, needs_cloud) := st in
  let '(pattern, tool_name, extractor, is_cloud) := r in
  if bool_decide (tool_name ∈ tool_names) && found pattern text_lower then
    (calls ++ [Call tool_name (Some (extractor user_text))],
     if is_cloud then true else needs_cloud)
  else (calls, needs_cloud).

Definition fallback_loop (messages : list message) (tools : list tool)
    : list call * bool :=
  let user_text := user_text_of messages in
  let text_lower := PyStr.lower user_text in
  let tool_names : gset string := list_to_set (tool_name <$> tools) in
  foldl (fallback_step tool_names user_text text_lower) ([], false) patterns.

(** ** server.py: argument enrichment *)

Definition _EXTRACTORS : gmap string (string → gmap string value) :=
  list_to_map
    [("diagnose_lock_fault", _extract_diagnose_args);
     ("log_service_report", _extract_report_args);
     ("generate_checklist", _extract_checklist_args);
     ("lookup_part", _extract_part_args);
     ("schedule_followup", _extract_followup_args);
     ("contact_dispatch", _extract_dispatch_args);
     ("generate_invoice", _extract_invoice_args)].

Definition _DEFAULT_VALUES : gset string :=
  {[ ""; "Customer"; "Locksmith Service"; "unknown"; "none"; "N/A" ]}.

(** The test of the loop of [_enrich_arguments] on
    [existing = args.get(key, "")]:
    [not existing or str(existing).strip() in _DEFAULT_VALUES]. *)
Definition fillable (existing : value) : bool :=
  negb (truthy existing)
  || bool_decide (PyStr.strip (py_str existing) ∈ _DEFAULT_VALUES).

Definition fill_step (args : gmap string value) (item : string * value)
    : gmap string value :=
  let '(key, v) := item in
  let existing := default (VStr "") (args !! key) in
  if fillable existing then <[key := v]> args else args.

(** [_enrich_arguments(name, args, user_text)].  The source updates [args]
    in place and returns it; the model returns the updated mapping. *)
Definition _enrich_arguments (name : string) (args : gmap string value)
    (user_text : string) : gmap string value :=
  match _EXTRACTORS !! name with
  | None => args
  | Some extractor =>
      let extracted := extractor user_text in
      foldl fill_step args (map_to_list extracted)
  end.

(** ** server.py: tool execution, history and the endpoints *)

(** The payload of [execute_tool].  The mock payloads embed fresh
    identifiers and the local time, and the invoice handler renders a PDF;
    the model keeps which handler ran on which arguments, or that no
    handler has the name. *)
Inductive tool_result :=
| Handled (handler : string) (args : gmap string value)
| UnknownTool (name : string).

Definition handler_names : list string :=
  ["diagnose_lock_fault"; "log_service_report"; "generate_checklist";
   "lookup_part"; "schedule_followup"; "contact_dispatch";
   "generate_invoice"].

Record executed_call := Executed {
  e_name : string;
  e_arguments : gmap string value;
  e_result : tool_result;
}.

Record history_entry := HistoryEntry {
  h_call : executed_call;        (* "name", "arguments", "result" *)
  h_timestamp : string;
  h_source : string;
  h_latency_ms : Qc;
}.

(** The components a request can invoke, for the invocation log. *)
Inductive event :=
| RouterCalled
| FallbackCalled
| ToolCalled (name : string)
| TranscribeCalled.

Global Instance event_eq_dec : EqDecision event.
Proof. solve_decision. Defined.

Definition handle : Type := nat.

(** An uploaded audio file. *)
Record upload := Upload {
  filename : option string;
  audio_bytes : string;
}.

(** The collaborators outside the repository's sources and the clock. *)
Record env := Env {
  (** [main.generate_hybrid]; [None] when it raises. *)
  generate_hybrid : list message → list tool → option routing_result;
  (** [os.path.exists(WHISPER_MODEL_PATH)] *)
  weights_on_disk : bool;
  (** what [cactus_init] returns *)
  cactus_init : option handle;
  (** Conversion, [cactus_reset], [cactus_transcribe] and the decoding of
      its answer: [None] when a step raises, otherwise the ["response"]
      entry of the answer, if it has one. *)
  cactus_transcribe : handle → upload → option (option string);
  (** the n-th reading of [time.time()], in seconds *)
  time_at : nat → Qc;
  (** [time.strftime] at the n-th reading of the clock *)
  strftime_at : nat → string;
}.

(** The process state: the two globals of [server.py], the number of
    clock readings made so far, and the log of invoked components. *)
Record world := World {
  _job_history : list history_entry;
  _whisper_model : option handle;
  ticks : nat;
  trace : list event;
}.

(** State-passing computations. *)
Definition M (A : Type) : Type := world → A * world.

Global Instance M_ret : MRet M := λ A a w, (a, w).

Global Instance M_bind : MBind M :=
  λ A B f m w, let '(a, w') := m w in f a w'.

(** [time.time()] *)
Definition now (E : env) : M Qc :=
  λ w, (time_at E (ticks w),
        World (_job_history w) (_whisper_model w) (S (ticks w)) (trace w)).

(** [time.strftime(...)] *)
Definition strftime (E : env) : M string :=
  λ w, (strftime_at E (ticks w),
        World (_job_history w) (_whisper_model w) (S (ticks w)) (trace w)).

Definition emit (e : event) : M unit :=
  λ w, (tt, World (_job_history w) (_whisper_model w) (ticks w)
                  (trace w ++ [e])).

(** [_job_history.append(entry)] *)
Definition append_history (entry : history_entry) : M unit :=
  λ w, (tt, World (_job_history w ++ [entry]) (_whisper_model w) (ticks w)
                  (trace w)).

(** [for x in xs: body(x)], collecting what the bodies return. *)
Fixpoint for_each {A B} (xs : list A) (body : A → M B) : M (list B) :=
  match xs with
  | [] => mret []
  | x :: xs' => b ← body x; bs ← for_each xs' body; mret (b :: bs)
  end.

(** [round(x, 1)]: to the nearest tenth, ties to the even one. *)
Definition round1 (x : Qc) : Qc :=
  let y := (x * Q2Qc 10)%Qc in
  let n := Qfloor y in
  let d := (y - Qc_of_Z n)%Qc in
  let half := Q2Qc (1 # 2) in
  let m := if bool_decide (d < half)%Qc then n
           else if bool_decide (half < d)%Qc then (n + 1)%Z
           else if Z.even n then n else (n + 1)%Z in
  (Qc_of_Z m / Q2Qc 10)%Qc.

(** [execute_tool(name, arguments)], on the runs in which no handler
    raises.  A handler of the source can raise on an argument that is not a
    string ([.lower()] on the job type of a checklist, [.title()] on the
    service type of an invoice), and the request then ends there; the
    statements on executed calls say which runs they are about. *)
Definition execute_tool (name : string) (args : gmap string value)
    : M tool_result :=
  emit (ToolCalled name);;
  mret (if bool_decide (name ∈ handler_names) then Handled name args
       else UnknownTool name).

(** [_keyword_fallback(messages, tools)] *)
Definition _keyword_fallback (E : env) (messages : list message)
    (tools : list tool) : M routing_result :=
  emit FallbackCalled;;
  start ← now E;
  let '(calls, needs_cloud) := fallback_loop messages tools in
  finish ← now E;
  let elapsed := ((finish - start) * Q2Qc 1000)%Qc in
  mret (RoutingResult (Some calls) (Some elapsed)
         (Some (if needs_cloud then "cloud" else "on-device"))).

(** The [try: generate_hybrid(...) except: _keyword_fallback(...)] of both
    endpoints. *)
Definition route (E : env) (messages : list message) (tools : list tool)
    : M routing_result :=
  emit RouterCalled;;
  match generate_hybrid E messages tools with
  | Some result => mret result
  | None => _keyword_fallback E messages tools
  end.

(** The enrichment loop of both endpoints: every call gets the enriched
    arguments, a call without arguments the enrichment of [{}]. *)
Definition enrich_calls (calls : list call) (user_text : string) : list call :=
  (λ c, Call (name c)
          (Some (_enrich_arguments (name c) (get_arguments c) user_text)))
  <$> calls.

Record HybridRequest := {
  req_messages : list message;
  req_tools : option (list tool);
}.

Record hybrid_response := HybridResponse {
  hr_function_calls : list executed_call;
  hr_source : string;
  hr_latency_ms : Qc;
}.

(** The body of the execution loop of [hybrid_endpoint]: run the tool,
    then append the entry, with the time stamp, the source tag and the
    latency of the request, to the history. *)
Definition execute_and_log (E : env) (source_tag : string) (latency_ms : Qc)
    (c : call) : M executed_call :=
  tool_result ← execute_tool (name c) (get_arguments c);
  let entry := Executed (name c) (get_arguments c) tool_result in
  timestamp ← strftime E;
  append_history (HistoryEntry entry timestamp source_tag latency_ms);;
  mret entry.

(** The body of the execution loop of [process_voice_endpoint]. *)
Definition execute_only (c : call) : M executed_call :=
  tool_result ← execute_tool (name c) (get_arguments c);
  mret (Executed (name c) (get_arguments c) tool_result).

(** [hybrid_endpoint(req)] *)
Definition hybrid_endpoint (E : env) (req : HybridRequest) : M hybrid_response :=
  let tools := match req_tools req with
               | Some (t :: ts) => t :: ts
               | _ => LOCKSMITH_TOOLS
               end in
  start ← now E;
  result ← route E (req_messages req) tools;
  finish ← now E;
  let elapsed := ((finish - start) * Q2Qc 1000)%Qc in
  let user_text := user_text_of (req_messages req) in
  let calls := enrich_calls (default [] (function_calls result)) user_text in
  executed ← for_each calls
    (execute_and_log E (default "unknown" (routed_by result)) (round1 elapsed));
  mret (HybridResponse executed (default "unknown" (routed_by result))
         (round1 elapsed)).

(** [_get_whisper()], as one call runs it from its first line to its last
    with no other call of it under way.  Calls that overlap are followed
    step by step by [whisper_step] below. *)
Definition _get_whisper (E : env) : M (option handle) :=
  λ w,
    match _whisper_model w with
    | Some h => (Some h, w)
    | None =>
        if weights_on_disk E then
          (cactus_init E,
           World (_job_history w) (cactus_init E) (ticks w) (trace w))
        else (None, w)
    end.

(** [_do_transcribe(whisper, audio_path)]: [None] when it raises, otherwise
    the stripped text and the time the engine took. *)
Definition _do_transcribe (E : env) (whisper : handle) (audio : upload)
    : M (option (string * Qc)) :=
  emit TranscribeCalled;;
  start ← now E;
  match cactus_transcribe E whisper audio with
  | None => mret None
  | Some response =>
      finish ← now E;
      let elapsed := ((finish - start) * Q2Qc 1000)%Qc in
      mret (Some (PyStr.strip (default EmptyString response), elapsed))
  end.

Record voice_response := VoiceResponse {
  vr_transcription : string;
  vr_transcribe_latency_ms : Qc;
  vr_function_calls : list executed_call;
  vr_source : string;
  vr_routing_latency_ms : Qc;
}.

(** [process_voice_endpoint(audio)] *)
Definition process_voice_endpoint (E : env) (audio : upload) : M voice_response :=
  whisper ← _get_whisper E;
  transcribed ←
    match whisper with
    | Some w =>
        outcome ← _do_transcribe E w audio;
        mret (default (EmptyString, Q2Qc 0) outcome)
    | None => mret (EmptyString, Q2Qc 0)
    end;
  let '(transcribe_text, transcribe_ms) := transcribed in
  if bool_decide (transcribe_text = EmptyString) then
    mret (VoiceResponse EmptyString (round1 transcribe_ms) [] "none" (Q2Qc 0))
  else
    let messages := [Message (Some "user") transcribe_text] in
    start ← now E;
    hybrid_result ← route E messages LOCKSMITH_TOOLS;
    finish ← now E;
    let routing_ms := ((finish - start) * Q2Qc 1000)%Qc in
    let calls :=
      enrich_calls (default [] (function_calls hybrid_result)) transcribe_text in
    executed ← for_each calls execute_only;
    mret (VoiceResponse transcribe_text (round1 transcribe_ms) executed
           (default "unknown" (routed_by hybrid_result))
           (round1 (default routing_ms (reported_time_ms hybrid_result)))).

(** ** Reference definitions

    The definitions below follow the wording of the specification; the
    theorems compare them with the embedded code above. *)

(** Spec: "string comparison ... is: lower-case, leading/trailing whitespace
    trimmed; non-string values compare by raw equality". *)
Definition normalize_spec (v : value) : value :=
  match v with
  | VStr s => VStr (PyStr.strip (PyStr.lower s))
  | _ => v
  end.

Definition normalized_equal (a b : value) : Prop :=
  py_eq (normalize_spec a) (normalize_spec b) = true.

(** Spec: "names are equal and every expected argument key is present in
    the predicted call with a normalized-equal value". *)
Definition matches_spec (predicted expected : call) : Prop :=
  name predicted = name expected ∧
  ∀ key exp_val, get_arguments expected !! key = Some exp_val →
    ∃ pred_val, get_arguments predicted !! key = Some pred_val ∧
                normalized_equal pred_val exp_val.

(** Spec: "find the first not-yet-used predicted call that matches; mark it
    used".  [unused] lists the predicted calls not yet used, in order; the
    result is that list once the first call satisfying [f] is used. *)
Fixpoint use_first (f : call → bool) (unused : list call) : option (list call) :=
  match unused with
  | [] => None
  | p :: ps => if f p then Some ps else (p ::.) <$> use_first f ps
  end.

(** Spec: "for each expected call in order": the number of expected calls
    that found a predicted call. *)
Fixpoint greedy_matched (unused expected : list call) : nat :=
  match expected with
  | [] => 0
  | e :: es =>
      match use_first (λ p, _call_matches p e) unused with
      | Some unused' => S (greedy_matched unused' es)
      | None => greedy_matched unused es
      end
  end.

(** Spec: "Both empty: 1.0.  Exactly one empty: 0.0 ...
    f1 = 2pr/(p+r) or 0.0 if both are 0". *)
Definition f1_reference (predicted expected : list call) : Qc :=
  match predicted, expected with
  | [], [] => Q2Qc 1
  | [], _ :: _ | _ :: _, [] => Q2Qc 0
  | _, _ =>
      let matched := of_nat (greedy_matched predicted expected) in
      let p := (matched / of_nat (length predicted))%Qc in
      let r := (matched / of_nat (length expected))%Qc in
      if decide ((p + r)%Qc = Q2Qc 0) then Q2Qc 0
      else (Q2Qc 2 * p * r / (p + r))%Qc
  end.

(** The side condition under which the greedy count does not depend on the
    order of the expected calls: two expected calls that compete for one
    predicted call are matched by exactly the same predicted calls. *)
Definition overlap_consistent (predicted expected : list call) : Prop :=
  Forall (λ e1, Forall (λ e2, Forall (λ p,
    _call_matches p e1 = true → _call_matches p e2 = true →
    Forall (λ q, _call_matches q e1 = _call_matches q e2) predicted)
  predicted) expected) expected.

Global Instance overlap_consistent_dec predicted expected :
  Decision (overlap_consistent predicted expected).
Proof. unfold overlap_consistent. apply _. Defined.

(** Sums and arithmetic means. *)
Definition total (xs : list Qc) : Qc := foldr Qcplus (Q2Qc 0) xs.

Definition mean (xs : list Qc) : Qc := (total xs / of_nat (length xs))%Qc.

(** Spec: "fraction of cases whose source equals on-device". *)
Definition on_device_ratio (group : list result) : Qc :=
  (of_nat (length (filter (λ r, source r = "on-device") group))
   / of_nat (length group))%Qc.

(** Spec: "time_score = max(0, 1 - avg_latency_ms / 500)". *)
Definition time_score (avg_latency_ms : Qc) : Qc :=
  let s := (Q2Qc 1 - avg_latency_ms / Q2Qc 500)%Qc in
  if decide (s < Q2Qc 0)%Qc then Q2Qc 0 else s.

(** Spec: "tier_score = 0.60*avg_f1 + 0.15*time_score + 0.25*on_device_ratio". *)
Definition tier_score (avg_f1 avg_latency_ms ratio : Qc) : Qc :=
  (Q2Qc 0.60 * avg_f1 + Q2Qc 0.15 * time_score avg_latency_ms
   + Q2Qc 0.25 * ratio)%Qc.

Definition tier_weights : list (string * Qc) :=
  [("easy", Q2Qc 0.20); ("medium", Q2Qc 0.30); ("hard", Q2Qc 0.50)].

Definition tier_present (results : list result) (d : string) : Prop :=
  Exists (λ r, difficulty r = d) results.

Definition tier_score_of (results : list result) (d : string) : Qc :=
  let group := group_of d results in
  tier_score (mean (f1 <$> group)) (mean (total_time_ms <$> group))
    (on_device_ratio group).

(** Spec: "total = 100 * sum(tier_weight * tier_score) over tiers present in
    the case set". *)
Definition total_score_reference (results : list result) : Qc :=
  (Q2Qc 100 *
   total ((λ '(d, weight), (weight * tier_score_of results d)%Qc)
          <$> filter (λ '(d, _), tier_present results d) tier_weights))%Qc.

(** Spec: "equal ... to one of a fixed set of known placeholder values",
    with the comparison the claim names: lower-cased and
    whitespace-trimmed. *)
Definition placeholder_spec (v : value) : Prop :=
  ∃ d, d ∈ _DEFAULT_VALUES ∧ normalized_equal v (VStr d).

(** Spec: "the existing value is absent, empty, or equal ... to one of a
    fixed set of known placeholder values". *)
Definition gap_spec (existing : option value) : Prop :=
  match existing with
  | None => True
  | Some v => v = VStr EmptyString ∨ placeholder_spec v
  end.

(** The enrichment contract as the specification words it: a key is
    overwritten only at a gap, a concrete value is neither changed nor
    deleted, and without an extraction rule nothing changes. *)
Definition enrichment_contract : Prop :=
  ∀ (name : string) (args : gmap string value) (text : string),
    (∀ key, _enrich_arguments name args text !! key ≠ args !! key →
            gap_spec (args !! key)) ∧
    (∀ key v, args !! key = Some v → ¬ gap_spec (Some v) →
              _enrich_arguments name args text !! key = Some v) ∧
    (_EXTRACTORS !! name = None → _enrich_arguments name args text = args).

(** What the code treats as a gap: no value, a falsy value, or a value whose
    [str()], trimmed, is literally one of the placeholders. *)
Definition gap (existing : option value) : Prop :=
  match existing with
  | None => True
  | Some v => truthy v = false
              ∨ PyStr.strip (py_str v) ∈ _DEFAULT_VALUES
  end.

(** The number of calls of a list that name the tool [n]. *)
Definition calls_named (n : string) (calls : list call) : nat :=
  length (filter (λ c, name c = n) calls).

(** The rule of [patterns] for a tool fires on a text. *)
Definition activated (r : rule) (messages : list message) : Prop :=
  found r.1.1.1 (PyStr.lower (user_text_of messages)) = true.

(** Step 1 of [process_voice_endpoint] leaves no text: the model is
    unavailable, the transcription raises, or the transcript is blank. *)
Definition no_transcript (E : env) (w : world) (audio : upload) : Prop :=
  let model := match _whisper_model w with
               | Some h => Some h
               | None => if weights_on_disk E then cactus_init E else None
               end in
  match model with
  | None => True
  | Some h =>
      match cactus_transcribe E h audio with
      | None => True
      | Some response => PyStr.strip (default EmptyString response) = EmptyString
      end
  end.

(** The events a request added to the invocation log. *)
Definition new_events (before after : world) : list event :=
  drop (length (trace before)) (trace after).

(** ** Auxiliary definitions for the proofs *)

(** The predicted calls at the indices from [i] on that are not in [used]:
    the link between the index set of the code and the list of unused calls
    of the reference definition. *)
Fixpoint unused_from (used : gset nat) (i : nat) (preds : list call) : list call :=
  match preds with
  | [] => []
  | p :: ps =>
      if bool_decide (i ∈ used) then unused_from used (S i) ps
      else p :: unused_from used (S i) ps
  end.

(** The unused calls after the first call satisfying [f] is used, and the
    number of matches (0 or 1) that adds. *)
Definition after_first (f : call → bool) (unused : list call) : list call :=
  default unused (use_first f unused).

Definition hit (f : call → bool) (unused : list call) : nat :=
  match use_first f unused with Some _ => 1 | None => 0 end.

(** A [set_timer] call, for the examples. *)
Definition timer (args : gmap string value) : call := Call "set_timer" (Some args).

(** The parts of an activation rule. *)
Definition rule_pattern (r : rule) : regex := r.1.1.1.
Definition rule_tool (r : rule) : string := r.1.1.2.
Definition rule_call (user_text : string) (r : rule) : call :=
  Call (rule_tool r) (Some (r.1.2 user_text)).

(** The test of the loop of [_keyword_fallback]. *)
Definition fires (tool_names : gset string) (text_lower : string) (r : rule) : bool :=
  bool_decide (rule_tool r ∈ tool_names) && found (rule_pattern r) text_lower.

(** The calls the loop of [_keyword_fallback] appends for a list of rules. *)
Definition calls_of (tool_names : gset string) (user_text text_lower : string)
    (rules : list rule) : list call :=
  rule_call user_text <$> filter (λ r, fires tool_names text_lower r = true) rules.

(** What [execute_tool] returns for a call, as an executed call. *)
Definition tool_outcome (c : call) : executed_call :=
  Executed (name c) (get_arguments c)
    (if bool_decide (name c ∈ handler_names)
     then Handled (name c) (get_arguments c) else UnknownTool (name c)).

(** *** Environments for concrete runs *)

(** A clock that advances by 100 ms from one reading to the next. *)
Definition clock_tenths (n : nat) : Qc := (of_nat n / Q2Qc 10)%Qc.

(** An environment whose speech model is on disk and hears [heard], with
    the router [router]. *)
Definition env_hearing (heard : string)
    (router : list message → list tool → option routing_result) : env :=
  Env router true (Some 1) (λ _ _, Some (Some heard)) clock_tenths
      (λ _, "2026-01-01 00:00:00").

Definition fresh_world : world := World [] None 0 [].

Definition some_audio : upload := Upload (Some "memo.m4a") "".

(** A router that raises, and one that answers at once and reports 5 ms. *)
Definition router_down : list message → list tool → option routing_result :=
  λ _ _, None.

Definition router_reporting_5ms
    : list message → list tool → option routing_result :=
  λ _ _, Some (RoutingResult
                 (Some [Call "generate_checklist" None])
                 (Some (Q2Qc 5)) (Some "on-device")).

(** ** Further definitions *)

(** A call with every argument value normalized. *)
Definition normalize_call (c : call) : call :=
  Call (name c) (Some (_normalize <$> get_arguments c)).

(** The sum of the weights of the tiers that have a case. *)
Definition present_weight (results : list result) : Qc :=
  total (snd <$> filter (λ '(d, _), tier_present results d) tier_weights).

(** A result as [run_benchmark] can produce it: an F1 between 0 and 1 and a
    time that is not negative. *)
Definition plausible (r : result) : Prop :=
  (Q2Qc 0 <= f1 r)%Qc ∧ (f1 r <= Q2Qc 1)%Qc ∧ (Q2Qc 0 <= total_time_ms r)%Qc.

(** A result that cannot be better: F1 1, no latency, decided on-device. *)
Definition perfect (r : result) : Prop :=
  f1 r = Q2Qc 1 ∧ total_time_ms r = Q2Qc 0 ∧ source r = "on-device".

(** ** benchmark.py: [run_benchmark] *)

(** A benchmark case. *)
Record benchmark_case := Case {
  case_name : string;
  case_difficulty : string;
  case_messages : list message;
  case_tools : list tool;
  expected_calls : list call;
}.

(** The exceptions [run_benchmark] can end with. *)
Inductive py_error :=
| RouterRaised                      (* [generate_hybrid] raised *)
| KeyError (key : string)           (* [result[key]] on a missing key *)
| ZeroDivisionError.

(** One iteration of the loop of [run_benchmark]: route the case, score
    the answer, build the entry.  [result["function_calls"]] is read first,
    [result["total_time_ms"]] when the progress line is printed. *)
Definition run_case
    (router : list message → list tool → option routing_result)
    (case : benchmark_case) : py_error + result :=
  match router (case_messages case) (case_tools case) with
  | None => inl RouterRaised
  | Some answer =>
      match function_calls answer with
      | None => inl (KeyError "function_calls")
      | Some calls =>
          let score := compute_f1 calls (expected_calls case) in
          let source_tag := default "unknown" (routed_by answer) in
          match reported_time_ms answer with
          | None => inl (KeyError "total_time_ms")
          | Some time =>
              inr (Result (case_name case) (case_difficulty case) time score
                     source_tag)
          end
      end
  end.

(** The loop of [run_benchmark]: the first exception ends it. *)
Fixpoint run_cases
    (router : list message → list tool → option routing_result)
    (cases : list benchmark_case) : py_error + list result :=
  match cases with
  | [] => inr []
  | case :: rest =>
      match run_case router case with
      | inl e => inl e
      | inr r =>
          match run_cases router rest with
          | inl e => inl e
          | inr rs => inr (r :: rs)
          end
      end
  end.

(** [run_benchmark(benchmarks)] for an explicit list of cases; what it
    prints is left out, but not the division by [len(results)] of the
    overall summary, which raises when there are no results. *)
Definition run_benchmark
    (router : list message → list tool → option routing_result)
    (benchmarks : list benchmark_case) : py_error + list result :=
  match run_cases router benchmarks with
  | inl e => inl e
  | inr results =>
      if is_empty results then inl ZeroDivisionError else inr results
  end.

(** A router that answers every case of a list with the expected calls,
    at once and on-device. *)
Definition answers_expected
    (router : list message → list tool → option routing_result)
    (cases : list benchmark_case) : Prop :=
  ∀ case, case ∈ cases →
    router (case_messages case) (case_tools case)
    = Some (RoutingResult (Some (expected_calls case)) (Some (Q2Qc 0))
              (Some "on-device")).

(** A router that answers every case of a list with some calls and a time
    that is not negative. *)
Definition answers_in_time
    (router : list message → list tool → option routing_result)
    (cases : list benchmark_case) : Prop :=
  ∀ case, case ∈ cases →
    ∃ calls time source_tag,
      router (case_messages case) (case_tools case)
      = Some (RoutingResult (Some calls) (Some time) source_tag)
      ∧ (Q2Qc 0 <= time)%Qc.

(** A case and a router for the examples. *)
Definition weather_case : benchmark_case :=
  Case "weather_sf" "easy"
    [Message (Some "user") "What is the weather in San Francisco?"]
    [Tool "get_weather" ["location"] ["location"]]
    [Call "get_weather" (Some {["location" := VStr "San Francisco"]})].

Definition weather_router : list message → list tool → option routing_result :=
  λ _ _, Some (RoutingResult
                 (Some [Call "get_weather"
                          (Some {["location" := VStr "san francisco"]})])
                 (Some (Q2Qc 12)) None).

(** Three cases, one per tier, and the router that answers each of them
    with its expected calls. *)
Definition tier_case (difficulty_tag city : string) : benchmark_case :=
  Case difficulty_tag difficulty_tag
    [Message (Some "user") city]
    [Tool "get_weather" ["location"] ["location"]]
    [Call "get_weather" (Some {["location" := VStr city]})].

Definition three_cases : list benchmark_case :=
  [tier_case "easy" "Paris"; tier_case "medium" "Lima"; tier_case "hard" "Oslo"].

Definition echo_router : list message → list tool → option routing_result :=
  λ messages _,
    Some (RoutingResult
            (Some ((λ m, Call "get_weather"
                           (Some {["location" := VStr (content m)]}))
                   <$> messages))
            (Some (Q2Qc 0)) (Some "on-device")).

(** ** Further definitions for [server.py] *)

(** Arguments whose values are all strings, as every parameter of the
    locksmith tools is declared. *)
Definition string_valued (args : gmap string value) : Prop :=
  map_Forall (λ _ v, ∃ s, v = VStr s) args.

(** The required parameters of the locksmith tool with a name, if there is
    one. *)
Definition required_of (tool : string) : list string :=
  match filter (λ t, tool_name t = tool) LOCKSMITH_TOOLS with
  | t :: _ => required t
  | [] => []
  end.

(** The rule of [patterns] for [generate_invoice], the only one that asks
    for the cloud. *)
Definition invoice_rule : rule :=
  (any_of ["invoice"; "bill"; "charge"; "receipt"; "payment"],
   "generate_invoice", _extract_invoice_args, true).

(** A message with its content in lower case. *)
Definition lower_message (m : message) : message :=
  Message (role m) (PyStr.lower (content m)).

(** [req.tools or LOCKSMITH_TOOLS], the catalog [hybrid_endpoint] routes
    over. *)
Definition tools_or_default (req : HybridRequest) : list tool :=
  match req_tools req with
  | Some (t :: ts) => t :: ts
  | _ => LOCKSMITH_TOOLS
  end.

(** [get_history(tool)]: the history, or its entries for one tool when
    [tool] is given and not empty, with their number. *)
Definition get_history (tool : option string) : M (list history_entry * nat) :=
  λ w,
    let history :=
      match tool with
      | Some t =>
          if bool_decide (t = EmptyString) then _job_history w
          else filter (λ h, e_name (h_call h) = t) (_job_history w)
      | None => _job_history w
      end in
    ((history, length history), w).

(** ** benchmark.py: [compute_total_score] in binary64

    A Python float is an IEEE 754 binary64 number, and so is a primitive
    float of the kernel: the same values, the same rounding to nearest with
    ties to even.  The definitions of this module repeat
    [compute_total_score] over them, operation by operation and in the
    order of the source, so that they return the very number the program
    returns. *)
Module Binary64.
Import PrimFloat.
#[local] Set Warnings "-inexact-float".
Local Open Scope float_scope.

(** [float(n)] for a count; exact below 2^53. *)
Definition of_nat (n : nat) : float := of_uint63 (Uint63.of_Z (Z.of_nat n)).

(** One entry of the [results] list, with its two numbers as floats. *)
Record result := Result {
  r_name : string;
  difficulty : string;
  total_time_ms : float;
  f1 : float;
  source : string;
}.

Definition difficulty_weights : list (string * float) :=
  [("easy", 0.20); ("medium", 0.30); ("hard", 0.50)].

Definition time_baseline_ms : float := 500.

(** [sum(xs)] of floats: from 0, left to right; the integer 0 it starts
    from becomes the float 0 at the first addition. *)
Definition py_sum (xs : list float) : float := foldl add 0 xs.

(** [sum(1 for ...)]: a sum of integers. *)
Definition py_sum_int (xs : list nat) : nat := foldl Nat.add 0%nat xs.

(** [max(0, x)]: Python keeps the first argument unless the second is
    strictly greater. *)
Definition max0 (x : float) : float := if 0 <? x then x else 0.

(** [[r for r in results if r["difficulty"] == d]] *)
Definition group_of (d : string) (results : list result) : list result :=
  filter (λ r, difficulty r = d) results.

(** The body of the loop of [compute_total_score] for a non-empty group. *)
Definition level_score (group : list result) : float :=
  let avg_f1 := py_sum (f1 <$> group) / of_nat (length group) in
  let avg_time := py_sum (total_time_ms <$> group) / of_nat (length group) in
  let on_device_ratio :=
    of_nat (py_sum_int ((λ _, 1%nat)
                        <$> filter (λ r, source r = "on-device") group))
    / of_nat (length group) in
  let time_score := max0 (1 - avg_time / time_baseline_ms) in
  0.60 * avg_f1 + 0.15 * time_score + 0.25 * on_device_ratio.

(** [compute_total_score(results)].  Without any group the source returns
    the integer 0, here the float 0. *)
Definition compute_total_score (results : list result) : float :=
  let total_score :=
    foldl (λ total_score '(d, weight),
             let group := group_of d results in
             if is_empty group then total_score
             else total_score + weight * level_score group)
          0 difficulty_weights in
  total_score * 100.

(** *** The formula of the specification, in binary64

    The same formula read with binary64 operations, every sum taken from
    0 in the order of the list. *)

Definition total (xs : list float) : float := foldl add 0 xs.

Definition mean (xs : list float) : float := total xs / of_nat (length xs).

(** Spec: "fraction of cases whose source equals on-device". *)
Definition on_device_ratio (group : list result) : float :=
  of_nat (length (filter (λ r, source r = "on-device") group))
  / of_nat (length group).

(** Spec: "time_score = max(0, 1 - avg_latency_ms / 500)". *)
Definition time_score (avg_latency_ms : float) : float :=
  let s := 1 - avg_latency_ms / 500 in
  if 0 <? s then s else 0.

(** Spec: "tier_score = 0.60*avg_f1 + 0.15*time_score + 0.25*on_device_ratio". *)
Definition tier_score (avg_f1 avg_latency_ms ratio : float) : float :=
  0.60 * avg_f1 + 0.15 * time_score avg_latency_ms + 0.25 * ratio.

Definition tier_weights : list (string * float) :=
  [("easy", 0.20); ("medium", 0.30); ("hard", 0.50)].

Definition tier_present (results : list result) (d : string) : Prop :=
  Exists (λ r, difficulty r = d) results.

Definition tier_score_of (results : list result) (d : string) : float :=
  let group := group_of d results in
  tier_score (mean (f1 <$> group)) (mean (total_time_ms <$> group))
    (on_device_ratio group).

(** Spec: "total = 100 * sum(tier_weight * tier_score) over tiers present in
    the case set". *)
Definition total_score_reference (results : list result) : float :=
  total ((λ '(d, weight), weight * tier_score_of results d)
         <$> filter (λ '(d, _), tier_present results d) tier_weights)
  * 100.


End Binary64.

(** ** server.py: [_get_whisper] under threads

    The endpoints run [_get_whisper] on the two workers of [_thread_pool]
    and the start-up hook runs it on a thread of its own; the function
    takes no lock, so calls can overlap.  A call is followed through its
    steps, each with at most one access to the global [_whisper_model], and
    a schedule names the call that takes the next step. *)

(** Where a call of [_get_whisper] stands. *)
Inductive whisper_call :=
| AtCheck                           (* before [if _whisper_model is None] *)
| AtExists                          (* before [os.path.exists(...)] *)
| AtInit                            (* before [cactus_init(...)] *)
| AtStore (loaded : option handle)  (* before [_whisper_model = ...] *)
| AtReturn                          (* before [return _whisper_model] *)
| Returned (model : option handle).

Global Instance whisper_call_eq_dec : EqDecision whisper_call.
Proof. solve_decision. Defined.

(** The global, the number of calls of [cactus_init] so far, and the calls
    of [_get_whisper] under way or returned. *)
Record whisper_state := WhisperState {
  ws_model : option handle;
  ws_loads : nat;
  ws_calls : list whisper_call;
}.

(** One step of the call with index [i]; [init_at n] is what the n-th call
    of [cactus_init] returns.  A call that has returned, or an index
    without a call, takes no step. *)
Definition whisper_step (on_disk : bool) (init_at : nat → option handle)
    (s : whisper_state) (i : nat) : whisper_state :=
  let move c := WhisperState (ws_model s) (ws_loads s) (<[i := c]> (ws_calls s)) in
  match ws_calls s !! i with
  | Some AtCheck =>
      move (match ws_model s with None => AtExists | Some _ => AtReturn end)
  | Some AtExists => move (if on_disk then AtInit else AtReturn)
  | Some AtInit =>
      WhisperState (ws_model s) (S (ws_loads s))
        (<[i := AtStore (init_at (ws_loads s))]> (ws_calls s))
  | Some (AtStore loaded) =>
      WhisperState loaded (ws_loads s) (<[i := AtReturn]> (ws_calls s))
  | Some AtReturn => move (Returned (ws_model s))
  | Some (Returned _) | None => s
  end.

Definition whisper_run (on_disk : bool) (init_at : nat → option handle)
    (schedule : list nat) (s : whisper_state) : whisper_state :=
  foldl (whisper_step on_disk init_at) s schedule.




(** The calls the router answers with carry string arguments only.  On
    another value a handler of [execute_tool] can raise ([.lower()] on the
    job type of a checklist, [.title()] on the service type of an invoice),
    and the request then ends without a response; what is stated of the
    response and the history of [hybrid_endpoint] is stated under this
    condition. *)
Definition router_answers_strings (E : env) (req : HybridRequest) : Prop :=
  ∀ result,
    generate_hybrid E (req_messages req) (tools_or_default req) = Some result →
    Forall (λ c, string_valued (get_arguments c))
           (default [] (function_calls result)).

(** * Properties *)

(** ** Strings *)

Section strings.
Import PyStr.

Lemma is_space_lower_char c : is_space (lower_char c) = is_space c.
Proof. destruct c as [[] [] [] [] [] [] [] []]; reflexivity. Qed.

Lemma lower_lstrip s : lower (lstrip_chars is_space s) = lstrip_chars is_space (lower s).
Proof.
  induction s as [|c s IH]; simpl; [done|].
  rewrite is_space_lower_char. destruct (is_space c); simpl; congruence.
Qed.

Lemma lower_empty s : lower s = EmptyString ↔ s = EmptyString.
Proof. destruct s; simpl; split; congruence. Qed.

Lemma lower_rstrip s : lower (rstrip_chars is_space s) = rstrip_chars is_space (lower s).
Proof.
  induction s as [|c s IH]; simpl; [done|].
  rewrite <- IH, is_space_lower_char.
  destruct (rstrip_chars is_space s); simpl; [|done].
  destruct (is_space c); done.
Qed.

(** Trimming and lower-casing commute: the order in which [_normalize]
    applies them does not matter. *)
Lemma lower_strip s : lower (strip s) = strip (lower s).
Proof. unfold strip. by rewrite lower_lstrip, lower_rstrip. Qed.
End strings.

Lemma _normalize_spec v : _normalize v = normalize_spec v.
Proof. destruct v; simpl; [|done..]. by rewrite lower_strip. Qed.

Lemma py_eq_refl v : py_eq v v = true.
Proof. destruct v as [s|z|[]|]; simpl; by rewrite ?bool_decide_eq_true. Qed.

(** ** [_call_matches] *)

Lemma match_items_true pred_args items :
  match_items pred_args items = true ↔
  Forall (λ '(key, exp_val),
            ∃ pred_val, pred_args !! key = Some pred_val ∧
                        normalized_equal pred_val exp_val) items.
Proof.
  induction items as [|[key exp_val] items IH]; simpl.
  - split; [constructor|done].
  - rewrite list.Forall_cons, <- IH. unfold normalized_equal, py_ne.
    destruct (pred_args !! key) as [pv|]; [|split; [done|by intros [(? & ? & _) _]]].
    rewrite !_normalize_spec.
    destruct (py_eq (normalize_spec pv) (normalize_spec exp_val)) eqn:Heq; simpl.
    + split; [intros ?; split; [by exists pv|done]|by intros [_ ?]].
    + split; [done|]. intros [(pv' & [= <-] & Hpv) _]. congruence.
Qed.

Lemma _call_matches_true predicted expected :
  _call_matches predicted expected = true ↔ matches_spec predicted expected.
Proof.
  unfold _call_matches, matches_spec.
  case_bool_decide as Hname; simpl.
  - rewrite match_items_true, list.Forall_forall. split.
    + intros H. split; [done|]. intros key ev Hk.
      apply (H (key, ev)). by apply elem_of_map_to_list.
    + intros [_ H] [key ev] Hk. apply H. by apply elem_of_map_to_list.
  - split; [done|]. by intros [? _].
Qed.

(** Claim C2.  A predicted call matches an expected call exactly when the
    names are equal and every key of the expected arguments is present in
    the predicted arguments with a normalized-equal value.  Strings are
    normalized by lower-casing and trimming, values that are not strings are
    compared by plain equality; a key that only the predicted call has
    changes nothing, and an expected key that the predicted call lacks
    makes the match fail. *)
Theorem call_matches_spec (predicted expected : call) :
  (_call_matches predicted expected = true ↔ matches_spec predicted expected) ∧
  (∀ s t, normalized_equal (VStr s) (VStr t) ↔
          PyStr.strip (PyStr.lower s) = PyStr.strip (PyStr.lower t)) ∧
  (∀ a b, (∀ s, a ≠ VStr s) → (∀ s, b ≠ VStr s) →
          (normalized_equal a b ↔ py_eq a b = true)) ∧
  (∀ key v, get_arguments expected !! key = None →
     _call_matches (Call (name predicted)
                      (Some (<[key := v]> (get_arguments predicted))))
                   expected
     = _call_matches predicted expected) ∧
  (∀ key, is_Some (get_arguments expected !! key) →
          get_arguments predicted !! key = None →
          _call_matches predicted expected = false).
Proof.
  split_and!.
  - apply _call_matches_true.
  - intros s t. unfold normalized_equal. simpl. by rewrite bool_decide_eq_true.
  - intros a b Ha Hb. unfold normalized_equal.
    destruct a; [by destruct (Ha s)|..]; (destruct b; [by destruct (Hb s)|..]); done.
  - intros key v Hkey.
    apply eq_true_iff_eq. rewrite !_call_matches_true. unfold matches_spec; simpl.
    apply and_iff_compat_l.
    change (get_arguments (Call (name predicted)
              (Some (<[key:=v]> (get_arguments predicted)))))
      with (<[key:=v]> (get_arguments predicted)).
    split; intros H k ev Hk; destruct (H k ev Hk) as (pv & Hpv & ?);
      exists pv; (split; [|done]).
    + rewrite lookup_insert_ne in Hpv; [done|]. intros ->. congruence.
    + rewrite lookup_insert_ne; [done|]. intros ->. congruence.
  - intros key [ev Hev] Hnone.
    apply not_true_is_false. rewrite _call_matches_true. intros [_ H].
    destruct (H key ev Hev) as (pv & Hpv & _). congruence.
Qed.

(** Claim C2 at a predicted message to " Bob" with an extra key, against
    the expected recipient "bob". *)
Lemma call_matches_spec_witness :
  _call_matches
    (Call "send_message"
       (Some {["recipient" := VStr " Bob"; "message" := VStr "hi"]}))
    (Call "send_message" (Some {["recipient" := VStr "bob"]}))
  = true.
Proof.
  apply (proj1 (call_matches_spec _ _)). split; [reflexivity|].
  intros key exp_val Hkey. unfold get_arguments in Hkey. simpl in Hkey.
  apply lookup_singleton_Some in Hkey as [<- <-].
  exists (VStr " Bob"). split; [reflexivity|]. by vm_compute.
Defined.


(** ** [compute_f1] *)

Lemma unused_from_empty i preds : unused_from ∅ i preds = preds.
Proof.
  revert i. induction preds as [|p ps IH]; intros i; simpl; [done|].
  rewrite bool_decide_eq_false_2 by set_solver. by rewrite IH.
Qed.

Lemma unused_from_earlier used i j preds :
  j < i → unused_from ({[j]} ∪ used) i preds = unused_from used i preds.
Proof.
  revert i. induction preds as [|p ps IH]; intros i Hlt; simpl; [done|].
  rewrite IH by lia.
  assert (i ∈ {[j]} ∪ used ↔ i ∈ used) as Hiff.
  { rewrite elem_of_union, elem_of_singleton. split; [|by right].
    intros [->|?]; [lia|done]. }
  by rewrite (bool_decide_ext _ _ Hiff).
Qed.

Lemma first_unused_match_None exp used i preds :
  first_unused_match exp used i preds = None →
  use_first (λ p, _call_matches p exp) (unused_from used i preds) = None.
Proof.
  revert i. induction preds as [|p ps IH]; intros i; simpl; [done|].
  destruct (decide (i ∈ used)) as [Hi|Hi].
  - rewrite bool_decide_eq_false_2 by auto.
    rewrite bool_decide_eq_true_2 by done. simpl. apply IH.
  - rewrite bool_decide_eq_true_2 by done.
    rewrite bool_decide_eq_false_2 by done. simpl.
    destruct (_call_matches p exp); [done|]. intros H. by rewrite IH.
Qed.

Lemma first_unused_match_Some exp used i preds j :
  first_unused_match exp used i preds = Some j →
  i ≤ j ∧ j < i + length preds ∧ (j ∉ used) ∧
  use_first (λ p, _call_matches p exp) (unused_from used i preds)
  = Some (unused_from ({[j]} ∪ used) i preds).
Proof.
  revert i. induction preds as [|p ps IH]; intros i; simpl; [done|].
  destruct (decide (i ∈ used)) as [Hi|Hi].
  - rewrite bool_decide_eq_false_2 by auto.
    rewrite bool_decide_eq_true_2 by done. simpl.
    intros H. destruct (IH _ H) as (Hj & Hj' & Hused & Hfirst).
    split; [lia|]. split; [simpl; lia|]. split; [done|].
    by rewrite bool_decide_eq_true_2 by (by apply elem_of_union_r).
  - rewrite bool_decide_eq_true_2 by done.
    rewrite bool_decide_eq_false_2 by done. simpl.
    destruct (_call_matches p exp) eqn:Hm.
    + intros [= <-]. split; [lia|]. split; [simpl; lia|]. split; [done|].
      rewrite bool_decide_eq_true_2 by (by apply elem_of_union_l, elem_of_singleton).
      by rewrite unused_from_earlier by lia.
    + intros H. destruct (IH _ H) as (Hj & Hj' & Hused & Hfirst).
      split; [lia|]. split; [simpl; lia|]. split; [done|]. rewrite Hfirst. simpl.
      rewrite bool_decide_eq_false_2; [done|].
      rewrite elem_of_union, elem_of_singleton. intros [->|?]; [lia|done].
Qed.

Lemma match_loop_greedy predicted expected matched used :
  (foldl (match_step predicted) (matched, used) expected).1
  = matched + greedy_matched (unused_from used 0 predicted) expected.
Proof.
  revert matched used.
  induction expected as [|e es IH]; intros matched used; simpl; [lia|].
  destruct (first_unused_match e used 0 predicted) as [j|] eqn:Hscan.
  - apply first_unused_match_Some in Hscan as (_ & _ & _ & ->).
    rewrite IH. lia.
  - apply first_unused_match_None in Hscan as ->. apply IH.
Qed.

(** Every index is used at most once: [used] has as many elements as there
    are matches, all of them indices of predicted calls. *)
Lemma match_loop_used predicted expected matched used :
  let st := foldl (match_step predicted) (matched, used) expected in
  size st.2 + matched = st.1 + size used ∧
  ∀ i, i ∈ st.2 → i ∈ used ∨ i < length predicted.
Proof.
  revert matched used.
  induction expected as [|e es IH]; intros matched used; simpl;
    [split; [lia|auto]|].
  destruct (first_unused_match e used 0 predicted) as [j|] eqn:Hscan.
  - apply first_unused_match_Some in Hscan as (Hj & Hj' & Hnew & _).
    destruct (IH (matched + 1) ({[j]} ∪ used)) as [Hsize Hin].
    rewrite size_union in Hsize
      by (intros x ->%elem_of_singleton; exact Hnew).
    rewrite size_singleton in Hsize. simpl in *.
    split; [lia|]. intros i Hi. destruct (Hin i Hi) as [Hi'|]; [|by right].
    set_unfold in Hi'. destruct Hi' as [->|]; [right; lia|by left].
  - apply IH.
Qed.

Lemma matched_greedy predicted expected :
  (match_loop predicted expected).1 = greedy_matched predicted expected.
Proof.
  unfold match_loop. by rewrite match_loop_greedy, unused_from_empty.
Qed.

(** Claim C1.  [compute_f1] is the reference F1: 1 for two empty lists, 0
    when exactly one is empty, and otherwise 2pr/(p+r) (or 0 when p+r = 0)
    for the matched count of the greedy pass over the expected calls, each
    of which uses the first predicted call that matches and is not yet
    used.  No predicted call is used twice: the matched count is the size
    of the set of used indices, all of them indices of predicted calls. *)
Theorem compute_f1_reference (predicted expected : list call) :
  compute_f1 predicted expected = f1_reference predicted expected ∧
  (match_loop predicted expected).1 = size (match_loop predicted expected).2 ∧
  (∀ i, i ∈ (match_loop predicted expected).2 → i < length predicted).
Proof.
  split_and!.
  - destruct predicted as [|p ps], expected as [|e es]; try reflexivity.
    change (compute_f1 (p :: ps) (e :: es))
      with (f1_of_counts (match_loop (p :: ps) (e :: es)).1
              (length (p :: ps)) (length (e :: es))).
    rewrite matched_greedy. unfold f1_of_counts, f1_reference.
    generalize (greedy_matched (p :: ps) (e :: es)); intros m.
    case_bool_decide; destruct (decide _); done.
  - pose proof (match_loop_used predicted expected 0 ∅) as [H _].
    unfold match_loop. rewrite size_empty in H. simpl in H. lia.
  - intros i Hi.
    pose proof (match_loop_used predicted expected 0 ∅) as [_ H].
    destruct (H i Hi) as [?|?]; [set_solver|done].
Qed.

(** ** The greedy count and the order of the expected calls *)


Section greedy.
Implicit Types (f g : call → bool) (unused : list call).

Lemma greedy_matched_cons unused e es :
  greedy_matched unused (e :: es)
  = hit (λ p, _call_matches p e) unused
    + greedy_matched (after_first (λ p, _call_matches p e) unused) es.
Proof.
  unfold hit, after_first. simpl.
  by destruct (use_first _ unused).
Qed.

Lemma after_first_cons f p ps :
  after_first f (p :: ps) = if f p then ps else p :: after_first f ps.
Proof.
  unfold after_first. simpl. destruct (f p); [done|].
  by destruct (use_first f ps).
Qed.

Lemma hit_cons f p ps : hit f (p :: ps) = if f p then 1 else hit f ps.
Proof.
  unfold hit. simpl. destruct (f p); [done|].
  by destruct (use_first f ps).
Qed.

Lemma after_first_subseteq f unused : after_first f unused ⊆ unused.
Proof.
  induction unused as [|p ps IH]; [done|].
  rewrite after_first_cons. destruct (f p).
  - by apply list_subseteq_cons.
  - intros x. rewrite !elem_of_cons. intros [->|?]; [by left|right; by apply IH].
Qed.

Lemma after_first_ext f g unused :
  (∀ p, p ∈ unused → f p = g p) →
  after_first f unused = after_first g unused.
Proof.
  induction unused as [|p ps IH]; intros Hfg; [done|].
  rewrite !after_first_cons, <- (Hfg p) by left.
  rewrite IH; [done|]. intros q ?. apply Hfg. by right.
Qed.

Lemma hit_ext f g unused :
  (∀ p, p ∈ unused → f p = g p) → hit f unused = hit g unused.
Proof.
  induction unused as [|p ps IH]; intros Hfg; [done|].
  rewrite !hit_cons, <- (Hfg p) by left.
  rewrite IH; [done|]. intros q ?. apply Hfg. by right.
Qed.

(** Two tests that no unused call satisfies together do not disturb each
    other. *)
Lemma hit_after_disjoint f g unused :
  (∀ p, p ∈ unused → ¬ (f p = true ∧ g p = true)) →
  hit g (after_first f unused) = hit g unused.
Proof.
  induction unused as [|p ps IH]; intros Hfg; [done|].
  rewrite after_first_cons, !hit_cons.
  assert (∀ q, q ∈ ps → ¬ (f q = true ∧ g q = true)) as Hps
    by (intros q ?; apply Hfg; by right).
  destruct (f p) eqn:Hf.
  - destruct (g p) eqn:Hg; [|done]. destruct (Hfg p); [by left|done].
  - rewrite hit_cons. by rewrite IH.
Qed.

Lemma after_first_comm f g unused :
  (∀ p, p ∈ unused → ¬ (f p = true ∧ g p = true)) →
  after_first g (after_first f unused) = after_first f (after_first g unused).
Proof.
  induction unused as [|p ps IH]; intros Hfg; [done|].
  assert (∀ q, q ∈ ps → ¬ (f q = true ∧ g q = true)) as Hps
    by (intros q ?; apply Hfg; by right).
  rewrite !after_first_cons.
  destruct (f p) eqn:Hf, (g p) eqn:Hg.
  - destruct (Hfg p); [by left|done].
  - by rewrite after_first_cons, Hf.
  - by rewrite after_first_cons, Hg.
  - rewrite !after_first_cons, Hf, Hg. by rewrite IH.
Qed.
End greedy.

(** [overlap_consistent], element by element. *)
Lemma overlap_consistent_forall predicted expected :
  overlap_consistent predicted expected ↔
  ∀ e1 e2 p q, e1 ∈ expected → e2 ∈ expected → p ∈ predicted → q ∈ predicted →
    _call_matches p e1 = true → _call_matches p e2 = true →
    _call_matches q e1 = _call_matches q e2.
Proof.
  unfold overlap_consistent. rewrite list.Forall_forall.
  setoid_rewrite list.Forall_forall. setoid_rewrite list.Forall_forall.
  setoid_rewrite list.Forall_forall. naive_solver.
Qed.

Lemma overlap_dichotomy predicted expected unused e1 e2 :
  overlap_consistent predicted expected → unused ⊆ predicted →
  e1 ∈ expected → e2 ∈ expected →
  (∀ q, q ∈ unused → _call_matches q e1 = _call_matches q e2) ∨
  (∀ q, q ∈ unused → ¬ (_call_matches q e1 = true ∧ _call_matches q e2 = true)).
Proof.
  rewrite overlap_consistent_forall. intros Hc Hsub He1 He2.
  destruct (decide (Exists (λ p, _call_matches p e1 = true
                                 ∧ _call_matches p e2 = true) unused))
    as [Hex|Hno].
  - left. apply list.Exists_exists in Hex as (p & Hp & H1 & H2).
    intros q Hq. by apply (Hc e1 e2 p q); auto.
  - right. intros q Hq Hboth. apply Hno, list.Exists_exists. eauto.
Qed.

Lemma greedy_matched_swap predicted expected unused e1 e2 es :
  overlap_consistent predicted expected → unused ⊆ predicted →
  e1 ∈ expected → e2 ∈ expected →
  greedy_matched unused (e1 :: e2 :: es) = greedy_matched unused (e2 :: e1 :: es).
Proof.
  intros Hc Hsub He1 He2.
  rewrite !greedy_matched_cons.
  set (f := λ p, _call_matches p e1). set (g := λ p, _call_matches p e2).
  destruct (overlap_dichotomy _ _ unused e1 e2 Hc Hsub He1 He2) as [Heq|Hdis].
  - assert (∀ q, q ∈ after_first f unused → f q = g q) as Heq'
      by (intros q Hq; apply Heq; by apply (after_first_subseteq f unused)).
    rewrite <- (after_first_ext f g unused Heq), <- (hit_ext f g unused Heq).
    by rewrite (after_first_ext f g _ Heq'), (hit_ext f g _ Heq').
  - assert (∀ q, q ∈ unused → ¬ (g q = true ∧ f q = true)) as Hdis'
      by (intros q Hq [??]; by apply (Hdis q Hq)).
    rewrite (hit_after_disjoint f g unused Hdis).
    rewrite (hit_after_disjoint g f unused Hdis').
    rewrite (after_first_comm f g unused Hdis). lia.
Qed.

Lemma greedy_matched_perm predicted expected expected' :
  expected ≡ₚ expected' →
  overlap_consistent predicted expected →
  ∀ unused, unused ⊆ predicted →
    greedy_matched unused expected = greedy_matched unused expected'.
Proof.
  induction 1 as [|e es es' Hperm IH|e1 e2 es|es es' es'' H1 IH1 H2 IH2];
    intros Hc unused Hsub.
  - done.
  - rewrite !greedy_matched_cons. f_equal. apply IH.
    + rewrite overlap_consistent_forall in Hc |- *.
      intros ???? ??; apply Hc; by right.
    + etrans; [apply after_first_subseteq|done].
  - symmetry. eapply greedy_matched_swap; [done..| |].
    + right; left.
    + left.
  - rewrite IH1 by done. apply IH2; [|done].
    rewrite overlap_consistent_forall in Hc |- *.
    intros e1' e2' p q He1 He2. apply Hc; by rewrite H1.
Qed.

Lemma is_empty_perm {A} (l l' : list A) : l ≡ₚ l' → is_empty l = is_empty l'.
Proof.
  intros H. destruct l, l'; try done.
  - by apply Permutation_nil_cons in H.
  - symmetry in H. by apply Permutation_nil_cons in H.
Qed.

(** Claim C3, amended.  When two expected calls that both match some
    predicted call are matched by exactly the same predicted calls, the
    matched count of [compute_f1], and so the F1 it returns, is the same
    for every permutation of the expected calls. *)
Theorem compute_f1_permutation (predicted expected expected' : list call) :
  overlap_consistent predicted expected →
  expected ≡ₚ expected' →
  (match_loop predicted expected).1 = (match_loop predicted expected').1 ∧
  compute_f1 predicted expected = compute_f1 predicted expected'.
Proof.
  intros Hc Hperm.
  assert ((match_loop predicted expected).1
          = (match_loop predicted expected').1) as Hm.
  { rewrite !matched_greedy. by apply (greedy_matched_perm predicted). }
  split; [done|].
  unfold compute_f1.
  by rewrite Hm, (is_empty_perm _ _ Hperm), (Permutation_length Hperm).
Qed.


(** The amended claim C3 at two expected calls for different tools, in
    both orders. *)
Lemma compute_f1_permutation_witness :
  let predicted := [Call "get_weather" (Some {["location" := VStr "London"]});
                    Call "send_message" (Some {["recipient" := VStr "Bob"]})] in
  let expected := [Call "send_message" (Some {["recipient" := VStr "bob "]});
                   Call "get_weather" (Some {["location" := VStr "London"]})] in
  (match_loop predicted expected).1 = (match_loop predicted (reverse expected)).1 ∧
  compute_f1 predicted expected = compute_f1 predicted (reverse expected).
Proof.
  intros predicted expected.
  apply (compute_f1_permutation predicted expected (reverse expected)).
  - apply (bool_decide_unpack _). vm_compute. exact I.
  - apply Permutation_swap.
Defined.

(** Claim C3 as stated fails.  With the predicted timers for 10 and for 5
    minutes, the expected calls "any timer" then "timer for 10 minutes"
    match once, since the first takes the 10-minute timer; in the other
    order they match twice. *)
Lemma compute_f1_order_dependent :
  ¬ (∀ predicted expected expected' : list call,
       expected ≡ₚ expected' →
       (match_loop predicted expected).1 = (match_loop predicted expected').1 ∧
       compute_f1 predicted expected = compute_f1 predicted expected').
Proof.
  intros H.
  destruct (H [timer {["minutes" := VInt 10]}; timer {["minutes" := VInt 5]}]
              [timer ∅; timer {["minutes" := VInt 10]}]
              [timer {["minutes" := VInt 10]}; timer ∅]
              (Permutation_swap _ _ _)) as [Hm _].
  vm_compute in Hm. discriminate.
Qed.

(** ** [compute_total_score] *)

Section score.
Local Open Scope Qc_scope.

Lemma of_nat_S n : of_nat (S n) = of_nat n + Q2Qc 1.
Proof.
  unfold of_nat, Qc_of_Z. apply Qc_is_canon. simpl.
  rewrite !Qred_correct, Nat2Z.inj_succ, <- Z.add_1_r, inject_Z_plus.
  reflexivity.
Qed.

Lemma total_cons x xs : total (x :: xs) = x + total xs.
Proof. reflexivity. Qed.

Lemma foldl_plus a xs : foldl Qcplus a xs = a + total xs.
Proof.
  revert a. induction xs as [|x xs IH]; intros a; simpl.
  - ring.
  - rewrite IH. ring.
Qed.

Lemma py_sum_total xs : py_sum xs = total xs.
Proof. unfold py_sum. rewrite foldl_plus. ring. Qed.

Lemma total_ones {A} (l : list A) : total ((λ _, Q2Qc 1) <$> l) = of_nat (length l).
Proof.
  induction l as [|x l IH]; [by apply Qc_is_canon|].
  rewrite fmap_cons, length_cons, of_nat_S.
  rewrite total_cons, IH. ring.
Qed.

Lemma max0_time_score avg :
  max0 (Q2Qc 1 - avg / time_baseline_ms) = time_score avg.
Proof.
  unfold max0, time_score, time_baseline_ms.
  set (s := Q2Qc 1 - avg / Q2Qc 500).
  case_bool_decide as Hpos; destruct (decide (s < Q2Qc 0)) as [Hneg|Hneg].
  - exfalso. apply (Qclt_not_le _ _ Hpos). by apply Qclt_le_weak.
  - done.
  - done.
  - apply Qcle_antisym; [by apply Qcnot_lt_le|by apply Qcnot_lt_le].
Qed.

(** The loop body computes the tier score of the group's averages. *)
Lemma level_score_tier group :
  level_score group
  = tier_score (mean (f1 <$> group)) (mean (total_time_ms <$> group))
      (on_device_ratio group).
Proof.
  unfold level_score, tier_score, mean, on_device_ratio.
  by rewrite !py_sum_total, total_ones, length_fmap, max0_time_score, !length_fmap.
Qed.

Lemma is_empty_group results d :
  is_empty (group_of d results) = bool_decide (¬ tier_present results d).
Proof.
  unfold tier_present, group_of.
  induction results as [|r rs IH]; simpl.
  - done.
  - rewrite filter_cons. destruct (decide (difficulty r = d)) as [Hd|Hd]; simpl.
    + symmetry. apply bool_decide_eq_false_2. intros H. apply H. by left.
    + rewrite IH. apply bool_decide_ext. rewrite List.Exists_cons. tauto.
Qed.

Lemma score_loop results weights acc :
  foldl (λ total_score '(d, weight),
           let group := group_of d results in
           if is_empty group then total_score
           else total_score + weight * level_score group) acc weights
  = acc + total ((λ '(d, weight), weight * tier_score_of results d)
                 <$> filter (λ '(d, _), tier_present results d) weights).
Proof.
  revert acc. induction weights as [|[d weight] ws IH]; intros acc; simpl.
  - ring.
  - rewrite IH, filter_cons, is_empty_group, level_score_tier.
    destruct (decide (tier_present results d)) as [Hd|Hd].
    + rewrite bool_decide_eq_false_2 by tauto.
      rewrite fmap_cons, total_cons. unfold tier_score_of. ring.
    + by rewrite bool_decide_eq_true_2 by done.
Qed.

(** The formula in exact arithmetic, where sums can be reordered and no
    operation rounds: the loop is 100 times the sum, over the tiers that
    have a case, of the tier's weight times its tier score, and the tier
    score at averages 0.8 and 250 ms and an on-device ratio of 0.5 is
    0.68.  What the program returns, in binary64, is stated after this
    section. *)
Lemma compute_total_score_exact (results : list result) :
  compute_total_score results = total_score_reference results ∧
  (∀ d, tier_present results d →
     level_score (group_of d results) = tier_score_of results d) ∧
  (∀ group : list result,
     mean (f1 <$> group) = Q2Qc 0.8 →
     mean (total_time_ms <$> group) = Q2Qc 250 →
     on_device_ratio group = Q2Qc 0.5 →
     level_score group = Q2Qc 0.68).
Proof.
  split_and!.
  - unfold compute_total_score, total_score_reference.
    rewrite score_loop. unfold difficulty_weights, tier_weights. ring.
  - intros d _. apply level_score_tier.
  - intros group Hf1 Htime Hratio.
    rewrite level_score_tier, Hf1, Htime, Hratio.
    apply Qc_is_canon. vm_compute. reflexivity.
Qed.

(** In exact arithmetic, a tier of two cases with F1 0.8 each, 200 and
    300 ms, one of them on-device. *)
Example level_score_exact_example :
  level_score
    [Result "case_a" "hard" (Q2Qc 200) (Q2Qc 0.8) "on-device";
     Result "case_b" "hard" (Q2Qc 300) (Q2Qc 0.8) "cloud"]
  = Q2Qc 0.68.
Proof.
  apply (proj2 (proj2 (compute_total_score_exact []))).
  - apply Qc_is_canon. vm_compute. reflexivity.
  - apply Qc_is_canon. vm_compute. reflexivity.
  - apply Qc_is_canon. vm_compute. reflexivity.
Defined.
End score.

(** ** The composite score in binary64 *)

Section binary64.
Import PrimFloat Binary64.
#[local] Set Warnings "-inexact-float".
Local Open Scope float_scope.








End binary64.

(** ** [_enrich_arguments] *)

Lemma fillable_gap (existing : option value) :
  fillable (default (VStr EmptyString) existing) = true ↔ gap existing.
Proof.
  unfold fillable, gap. destruct existing as [v|]; simpl.
  - rewrite orb_true_iff, negb_true_iff, bool_decide_eq_true. done.
  - done.
Qed.

Lemma fill_step_lookup_ne args key v k :
  key ≠ k → fill_step args (key, v) !! k = args !! k.
Proof.
  intros Hne. unfold fill_step. destruct (fillable _); [|done].
  by rewrite lookup_insert_ne.
Qed.

Lemma fill_step_lookup_eq args key v :
  fill_step args (key, v) !! key
  = if fillable (default (VStr EmptyString) (args !! key)) then Some v
    else args !! key.
Proof.
  unfold fill_step. destruct (fillable _); [|done]. by rewrite lookup_insert_eq.
Qed.

(** The loop of [_enrich_arguments], key by key; in particular its result
    does not depend on the order in which the extracted items are visited. *)
Lemma fill_loop_lookup (items : list (string * value)) args k :
  NoDup items.*1 →
  foldl fill_step args items !! k
  = match (list_to_map items : gmap string value) !! k with
    | Some v =>
        if fillable (default (VStr EmptyString) (args !! k)) then Some v
        else args !! k
    | None => args !! k
    end.
Proof.
  revert args. induction items as [|[key v] items IH]; intros args Hnd.
  - done.
  - apply list.NoDup_cons in Hnd as [Hfresh Hnd].
    change (foldl fill_step args ((key, v) :: items))
      with (foldl fill_step (fill_step args (key, v)) items).
    rewrite IH, list_to_map_cons by done.
    destruct (decide (key = k)) as [->|Hne].
    + rewrite lookup_insert_eq.
      rewrite (not_elem_of_list_to_map_1 _ _ Hfresh).
      apply fill_step_lookup_eq.
    + by rewrite lookup_insert_ne, fill_step_lookup_ne by done.
Qed.

Lemma enrich_lookup name args text k :
  _enrich_arguments name args text !! k
  = match _EXTRACTORS !! name with
    | Some extractor =>
        match extractor text !! k with
        | Some v =>
            if fillable (default (VStr EmptyString) (args !! k)) then Some v
            else args !! k
        | None => args !! k
        end
    | None => args !! k
    end.
Proof.
  unfold _enrich_arguments. destruct (_EXTRACTORS !! name) as [extractor|]; [|done].
  rewrite fill_loop_lookup by apply NoDup_fst_map_to_list.
  by rewrite list_to_map_to_list.
Qed.

(** Claim C5, amended.  Enrichment changes the value at a key only if the
    tool has an extraction rule that produced the key and the existing value
    is a gap: absent, falsy (the empty string, 0, [False], [None]), or a
    value whose [str()], trimmed of whitespace, is spelt exactly like one
    of the placeholders; at such a key it writes the extracted value.  A
    present value that is not a gap is kept, no key is ever deleted, and
    without an extraction rule for the tool the arguments are unchanged. *)
Theorem enrich_arguments_fills_gaps (name : string)
    (args : gmap string value) (text : string) :
  let enriched := _enrich_arguments name args text in
  (∀ key, enriched !! key ≠ args !! key →
     gap (args !! key) ∧
     ∃ extractor, _EXTRACTORS !! name = Some extractor ∧
                  enriched !! key = extractor text !! key) ∧
  (∀ extractor key v,
     _EXTRACTORS !! name = Some extractor → extractor text !! key = Some v →
     gap (args !! key) → enriched !! key = Some v) ∧
  (∀ key v, args !! key = Some v → ¬ gap (Some v) → enriched !! key = Some v) ∧
  (∀ key, is_Some (args !! key) → is_Some (enriched !! key)) ∧
  (_EXTRACTORS !! name = None → enriched = args).
Proof.
  intros enriched. split_and!.
  - intros key. unfold enriched. rewrite enrich_lookup.
    destruct (_EXTRACTORS !! name) as [extractor|]; [|done].
    destruct (extractor text !! key) as [v|] eqn:Hv; [|done].
    destruct (fillable _) eqn:Hfill; [|done].
    intros _. split; [by apply fillable_gap|]. by exists extractor.
  - intros extractor key v Hex Hv Hgap. unfold enriched.
    rewrite enrich_lookup, Hex, Hv.
    apply fillable_gap in Hgap. by rewrite Hgap.
  - intros key v Hkey Hgap. unfold enriched. rewrite enrich_lookup.
    destruct (_EXTRACTORS !! name) as [extractor|]; [|done].
    destruct (extractor text !! key) as [v'|]; [|done].
    destruct (fillable _) eqn:Hfill; [|done].
    apply fillable_gap in Hfill. rewrite Hkey in Hfill. done.
  - intros key Hsome. unfold enriched. rewrite enrich_lookup.
    destruct (_EXTRACTORS !! name) as [extractor|]; [|done].
    destruct (extractor text !! key) as [v'|]; [|done].
    by destruct (fillable _).
  - intros Hnone. unfold enriched, _enrich_arguments. by rewrite Hnone.
Qed.

(** The amended claim C5 on an invoice request: the customer is kept, the
    placeholder amount is replaced. *)
Lemma enrich_arguments_fills_gaps_witness :
  _enrich_arguments "generate_invoice"
    {["customer_name" := VStr "Dana"; "amount" := VStr " N/A "]}
    "Invoice for a rekey, $80" !! "customer_name" = Some (VStr "Dana") ∧
  _enrich_arguments "generate_invoice"
    {["customer_name" := VStr "Dana"; "amount" := VStr " N/A "]}
    "Invoice for a rekey, $80" !! "amount" = Some (VStr "$80.00").
Proof.
  pose proof (enrich_arguments_fills_gaps "generate_invoice"
    {["customer_name" := VStr "Dana"; "amount" := VStr " N/A "]}
    "Invoice for a rekey, $80") as (_ & Hfill & Hkeep & _).
  split.
  - apply Hkeep; [reflexivity|].
    intros [H|H]; [by vm_compute in H|].
    apply (bool_decide_pack _) in H. by vm_compute in H.
  - apply (Hfill _extract_invoice_args); [reflexivity|by vm_compute|].
    right. apply (bool_decide_unpack _). by vm_compute.
Defined.

(** Claim C5 as stated fails.  The argument [job_type = 0] is present, is
    not empty and equals no placeholder, yet the checklist rule overwrites
    it with ["general"], because [not 0] holds. *)
Lemma enrichment_contract_fails : ¬ enrichment_contract.
Proof.
  intros H.
  destruct (H "generate_checklist" {["job_type" := VInt 0]} "")
    as (_ & Hkeep & _).
  specialize (Hkeep "job_type" (VInt 0) eq_refl).
  assert (¬ gap_spec (Some (VInt 0))) as Hgap.
  { intros [?|(d & _ & Hd)]; [done|]. by vm_compute in Hd. }
  specialize (Hkeep Hgap). by vm_compute in Hkeep.
Qed.

(** The placeholders are compared as they are spelt, not lower-cased. *)
Lemma enrich_keeps_lowercase_placeholder :
  placeholder_spec (VStr "customer") ∧
  _extract_invoice_args "" !! "customer_name" = Some (VStr "Customer") ∧
  _enrich_arguments "generate_invoice" {["customer_name" := VStr "customer"]} ""
    !! "customer_name" = Some (VStr "customer").
Proof.
  split_and!.
  - exists "Customer". split; [|by vm_compute].
    apply (bool_decide_unpack _). by vm_compute.
  - by vm_compute.
  - by vm_compute.
Qed.

(** Claim C6.  Enrichment is idempotent: enriching the enriched arguments
    again, for the same tool and text, changes nothing. *)
Theorem enrich_arguments_idempotent (name : string)
    (args : gmap string value) (text : string) :
  _enrich_arguments name (_enrich_arguments name args text) text
  = _enrich_arguments name args text.
Proof.
  apply map_eq. intros k. rewrite !enrich_lookup.
  destruct (_EXTRACTORS !! name) as [extractor|]; [|done].
  destruct (extractor text !! k) as [v|]; [|done].
  destruct (fillable (default (VStr EmptyString) (args !! k))) eqn:Hfill.
  - simpl. by destruct (fillable (VStr EmptyString)), (fillable v).
  - by rewrite Hfill.
Qed.

(** ** [_keyword_fallback] *)


Lemma calls_named_zero n calls :
  (∀ c, c ∈ calls → name c ≠ n) → calls_named n calls = 0.
Proof.
  unfold calls_named. induction calls as [|c calls IH]; intros H; [done|].
  rewrite filter_cons_False by (apply H; left). apply IH.
  intros c' ?. apply H. by right.
Qed.


Section fallback.
Context (tool_names : gset string) (user_text text_lower : string).

Lemma fallback_loop_calls rules calls needs_cloud :
  (foldl (fallback_step tool_names user_text text_lower)
         (calls, needs_cloud) rules).1
  = calls ++ calls_of tool_names user_text text_lower rules.
Proof using Type.
  revert calls needs_cloud.
  induction rules as [|[[[pattern tn] extractor] is_cloud] rules IH];
    intros calls needs_cloud.
  - by rewrite app_nil_r.
  - unfold calls_of. rewrite filter_cons.
    change (foldl ?f ?a (?x :: ?l)) with (foldl f (f a x) l).
    destruct (fires tool_names text_lower (pattern, tn, extractor, is_cloud))
      eqn:Hf; unfold fires, rule_tool, rule_pattern in Hf; simpl in Hf;
      unfold fallback_step at 2; rewrite Hf.
    + rewrite IH, decide_True by done. rewrite fmap_cons, <- app_assoc. done.
    + rewrite IH, decide_False by done. done.
Qed.

Lemma calls_of_named_in (rules : list rule) c :
  c ∈ calls_of tool_names user_text text_lower rules →
  ∃ r, r ∈ rules ∧ name c = rule_tool r ∧ fires tool_names text_lower r = true.
Proof using Type.
  unfold calls_of. rewrite list_elem_of_fmap. intros (r & -> & Hr).
  apply list_elem_of_filter in Hr as [Hfires Hr]. by exists r.
Qed.

Lemma calls_named_absent (rules : list rule) n :
  n ∉ rule_tool <$> rules → calls_named n (calls_of tool_names user_text text_lower rules) = 0.
Proof using Type.
  intros Hn. apply calls_named_zero. intros c Hc Hname. apply calls_of_named_in in Hc as (r & Hr & Hcr & _).
  apply Hn, list_elem_of_fmap. exists r. split; [congruence|done].
Qed.

Lemma calls_named_rule (rules : list rule) r :
  NoDup (rule_tool <$> rules) → r ∈ rules →
  calls_named (rule_tool r) (calls_of tool_names user_text text_lower rules)
  = if fires tool_names text_lower r then 1 else 0.
Proof using Type.
  induction rules as [|r0 rules IH]; intros Hnd Hr; [by apply elem_of_nil in Hr|].
  rewrite fmap_cons in Hnd. apply list.NoDup_cons in Hnd as [Hfresh Hnd].
  unfold calls_of, calls_named in *. rewrite filter_cons.
  apply elem_of_cons in Hr as [->|Hr].
  - pose proof (calls_named_absent rules _ Hfresh) as Hzero.
    unfold calls_named, calls_of in Hzero.
    destruct (fires tool_names text_lower r0) eqn:Hf.
    + rewrite decide_True by done. rewrite fmap_cons, filter_cons.
      rewrite decide_True by done. simpl. by rewrite Hzero.
    + by rewrite decide_False by (by intros ?).
  - assert (rule_tool r0 ≠ rule_tool r) as Hne.
    { intros Heq. apply Hfresh. rewrite Heq. by apply list_elem_of_fmap_2. }
    destruct (decide (fires tool_names text_lower r0 = true)); [|by apply IH].
    rewrite fmap_cons, filter_cons. rewrite decide_False by done. by apply IH.
Qed.
End fallback.

Lemma patterns_distinct : NoDup (rule_tool <$> patterns).
Proof. apply (bool_decide_unpack _). by vm_compute. Qed.

Lemma keyword_fallback_result E messages tools w :
  function_calls (_keyword_fallback E messages tools w).1
  = Some (fallback_loop messages tools).1.
Proof.
  unfold _keyword_fallback, mbind, M_bind, mret, M_ret, emit, now. simpl.
  by destruct (fallback_loop messages tools).
Qed.

(** Claim C7.  Every call of [_keyword_fallback] names a tool of the
    catalog; a catalog tool with an activation rule contributes exactly one
    call when its pattern matches the lower-cased text of the user messages
    and none otherwise; a name that no catalog tool has gets no call,
    whatever the text. *)
Theorem keyword_fallback_calls (E : env) (messages : list message)
    (tools : list tool) (w : world) :
  let calls := default [] (function_calls (_keyword_fallback E messages tools w).1) in
  (∀ c, c ∈ calls → ∃ t, t ∈ tools ∧ tool_name t = name c) ∧
  (∀ r t, r ∈ patterns → t ∈ tools → tool_name t = rule_tool r →
     (calls_named (tool_name t) calls = 1 ↔ activated r messages) ∧
     (calls_named (tool_name t) calls = 0 ↔ ¬ activated r messages)) ∧
  (∀ n, (∀ t, t ∈ tools → tool_name t ≠ n) → calls_named n calls = 0).
Proof.
  intros calls. unfold calls. rewrite keyword_fallback_result. simpl.
  unfold fallback_loop. rewrite fallback_loop_calls. simpl.
  set (tool_names := list_to_set (tool_name <$> tools) : gset string).
  set (text := user_text_of messages).
  assert (∀ n, n ∈ tool_names ↔ ∃ t, t ∈ tools ∧ tool_name t = n) as Hnames.
  { intros n. unfold tool_names. rewrite elem_of_list_to_set, list_elem_of_fmap.
    split; intros (t & ? & ?); by exists t. }
  split_and!.
  - intros c Hc. apply calls_of_named_in in Hc as (r & _ & Hname & Hfires).
    apply andb_true_iff in Hfires as [Hin _].
    apply bool_decide_eq_true in Hin. apply Hnames in Hin as (t & ? & ?).
    exists t. split; [done|congruence].
  - intros r t Hr Ht Hname. rewrite Hname.
    rewrite (calls_named_rule _ _ _ _ _ patterns_distinct Hr).
    unfold fires, activated. fold (rule_pattern r). fold text.
    rewrite bool_decide_eq_true_2 by (apply Hnames; eauto). simpl.
    destruct (found (rule_pattern r) (PyStr.lower text)); split; split; done.
  - intros n Hn. apply calls_named_zero. intros c Hc Hname. apply calls_of_named_in in Hc as (r & _ & Hcr & Hfires).
    apply andb_true_iff in Hfires as [Hin _].
    apply bool_decide_eq_true in Hin. apply Hnames in Hin as (t & Ht & Htn).
    apply (Hn t Ht). congruence.
Qed.

(** Claim C7 on "Bill the customer and make a checklist" with the locksmith
    catalog: the invoice rule fires once. *)
Lemma keyword_fallback_calls_witness :
  calls_named "generate_invoice"
    (default []
       (function_calls
          (_keyword_fallback (env_hearing "" router_down)
             [Message (Some "user") "Bill the customer and make a checklist"]
             LOCKSMITH_TOOLS fresh_world).1))
  = 1.
Proof.
  pose proof (keyword_fallback_calls (env_hearing "" router_down)
    [Message (Some "user") "Bill the customer and make a checklist"]
    LOCKSMITH_TOOLS fresh_world) as (_ & Hrule & _).
  apply (Hrule
           (any_of ["invoice"; "bill"; "charge"; "receipt"; "payment"],
            "generate_invoice", _extract_invoice_args, true)
           (Tool "generate_invoice"
              ["customer_name"; "service_type"; "amount"; "notes"]
              ["customer_name"; "service_type"])).
  - do 6 right. left.
  - do 6 right. left.
  - reflexivity.
  - by vm_compute.
Defined.

(** ** The endpoints *)

Ltac run_M :=
  unfold mbind, M_bind, mret, M_ret, emit, now, strftime, append_history;
  simpl.

Lemma drop_trace_app (old new : list event) :
  drop (length old) (old ++ new) = new.
Proof. by rewrite drop_app_length. Qed.

(** Claim C10.  When step 1 leaves no transcript (the speech model is
    unavailable, the transcription raises, or the text is blank) the voice
    endpoint answers with no function calls, source ["none"] and routing
    latency 0; it invokes neither the router nor the fallback nor a tool
    (the only component it may have invoked is the transcription), and the
    history is unchanged. *)
Theorem voice_without_transcript (E : env) (audio : upload) (w : world) :
  no_transcript E w audio →
  let resp := (process_voice_endpoint E audio w).1 in
  let w' := (process_voice_endpoint E audio w).2 in
  vr_transcription resp = EmptyString ∧
  vr_function_calls resp = [] ∧
  vr_source resp = "none" ∧
  vr_routing_latency_ms resp = Q2Qc 0 ∧
  (∀ e, e ∈ new_events w w' → e = TranscribeCalled) ∧
  _job_history w' = _job_history w.
Proof.
  unfold no_transcript, process_voice_endpoint, _get_whisper, _do_transcribe,
    new_events.
  destruct w as [history model ticks trace]. run_M.
  destruct model as [h|]; simpl.
  - destruct (cactus_transcribe E h audio) as [response|]; simpl.
    + intros ->. simpl. split_and!; try done.
      intros e. rewrite drop_trace_app. by intros ->%list_elem_of_singleton.
    + intros _. split_and!; try done.
      intros e. rewrite drop_trace_app. by intros ->%list_elem_of_singleton.
  - destruct (weights_on_disk E); simpl.
    + destruct (cactus_init E) as [h|]; simpl.
      * destruct (cactus_transcribe E h audio) as [response|]; simpl.
        -- intros ->. simpl. split_and!; try done.
           intros e. rewrite drop_trace_app. by intros ->%list_elem_of_singleton.
        -- intros _. split_and!; try done.
           intros e. rewrite drop_trace_app. by intros ->%list_elem_of_singleton.
      * intros _. split_and!; try done.
        intros e. rewrite drop_ge by done. by intros ?%elem_of_nil.
    + intros _. split_and!; try done.
      intros e. rewrite drop_ge by done. by intros ?%elem_of_nil.
Qed.

Lemma for_each_cons {A B} (x : A) (xs : list A) (body : A → M B) w :
  for_each (x :: xs) body w
  = ((body x w).1 :: (for_each xs body (body x w).2).1,
     (for_each xs body (body x w).2).2).
Proof.
  cbn [for_each]. unfold mbind, M_bind, mret, M_ret.
  destruct (body x w) as [b w1]. simpl. by destruct (for_each xs body w1).
Qed.


Lemma execute_and_log_run E source_tag latency c w :
  execute_and_log E source_tag latency c w
  = (tool_outcome c,
     World (_job_history w
            ++ [HistoryEntry (tool_outcome c) (strftime_at E (ticks w))
                  source_tag latency])
           (_whisper_model w) (S (ticks w))
           (trace w ++ [ToolCalled (name c)])).
Proof. reflexivity. Qed.

Lemma execute_only_run c w :
  execute_only c w
  = (tool_outcome c,
     World (_job_history w) (_whisper_model w) (ticks w)
           (trace w ++ [ToolCalled (name c)])).
Proof. reflexivity. Qed.

(** The execution loop of [hybrid_endpoint] appends one entry per call. *)
Lemma execute_and_log_loop E source_tag latency calls w :
  ∃ entries,
    _job_history (for_each calls (execute_and_log E source_tag latency) w).2
    = _job_history w ++ entries ∧
    h_call <$> entries
    = (for_each calls (execute_and_log E source_tag latency) w).1 ∧
    length (for_each calls (execute_and_log E source_tag latency) w).1
    = length calls ∧
    Forall (λ entry, h_source entry = source_tag
                     ∧ h_latency_ms entry = latency) entries.
Proof.
  revert w. induction calls as [|c calls IH]; intros w.
  - exists []. by rewrite app_nil_r.
  - rewrite for_each_cons, execute_and_log_run.
    cbn [fst snd]. set (w1 := World _ _ _ _).
    destruct (IH w1) as (entries & Hhist & Hcalls & Hlen & Hall).
    eexists (_ :: entries). split_and!.
    + rewrite Hhist. unfold w1. cbn [_job_history]. by rewrite <- app_assoc.
    + rewrite fmap_cons, Hcalls. done.
    + cbn [length]. by rewrite Hlen.
    + by constructor.
Qed.

(** The execution loop of [process_voice_endpoint] runs every call and
    leaves the history alone. *)
Lemma execute_only_loop calls w :
  _job_history (for_each calls execute_only w).2 = _job_history w ∧
  length (for_each calls execute_only w).1 = length calls.
Proof.
  revert w. induction calls as [|c calls IH]; intros w; [done|].
  rewrite for_each_cons, execute_only_run. cbn [fst snd].
  set (w1 := World _ _ _ _).
  destruct (IH w1) as [Hhist Hlen]. cbn [length]. by rewrite Hhist, Hlen.
Qed.

Lemma route_history E messages tools w :
  _job_history (route E messages tools w).2 = _job_history w.
Proof.
  unfold route, _keyword_fallback. run_M.
  destruct (generate_hybrid E messages tools); [done|]. simpl.
  by destruct (fallback_loop messages tools).
Qed.

(** [hybrid_endpoint] logs every call it executes, with the source tag and
    the latency it returns, and reports the time measured around [route],
    whatever the router reported. *)
Lemma hybrid_endpoint_history_latency E req w :
  let resp := (hybrid_endpoint E req w).1 in
  let w' := (hybrid_endpoint E req w).2 in
  let tools := match req_tools req with
               | Some (t :: ts) => t :: ts
               | _ => LOCKSMITH_TOOLS
               end in
  let started := World (_job_history w) (_whisper_model w) (S (ticks w)) (trace w) in
  let routed := (route E (req_messages req) tools started).2 in
  (∃ entries,
     _job_history w' = _job_history w ++ entries ∧
     h_call <$> entries = hr_function_calls resp ∧
     Forall (λ entry, h_source entry = hr_source resp
                      ∧ h_latency_ms entry = hr_latency_ms resp) entries) ∧
  hr_latency_ms resp
  = round1 ((time_at E (ticks routed) - time_at E (ticks w)) * Q2Qc 1000)%Qc.
Proof.
  intros resp w' tools started routed.
  pose proof (route_history E (req_messages req) tools started) as Hrouted.
  unfold resp, w', hybrid_endpoint. fold tools. run_M. fold started.
  unfold routed in *.
  destruct (route E (req_messages req) tools started) as [result w1] eqn:Hroute.
  simpl in *.
  set (w2 := World _ _ _ _).
  destruct (execute_and_log_loop E (default "unknown" (routed_by result))
              (round1 ((time_at E (ticks w1) - time_at E (ticks w))
                       * Q2Qc 1000)%Qc)
              (enrich_calls (default [] (function_calls result))
                 (user_text_of (req_messages req))) w2)
    as (entries & Hhist & Hcalls & _ & Hall).
  destruct (for_each _ _ w2) as [executed w3] eqn:Hrun.
  simpl in *. split; [|done]. exists entries. by rewrite Hhist, Hrouted.
Qed.

(** [process_voice_endpoint] never touches the history. *)
Lemma voice_endpoint_history E audio w :
  _job_history (process_voice_endpoint E audio w).2 = _job_history w.
Proof.
  unfold process_voice_endpoint.
  unfold mbind at 1, M_bind at 1.
  destruct (_get_whisper E w) as [whisper w1] eqn:Hw.
  assert (_job_history w1 = _job_history w) as H1.
  { unfold _get_whisper in Hw. destruct (_whisper_model w).
    - by injection Hw as _ <-.
    - destruct (weights_on_disk E); by injection Hw as _ <-. }
  unfold mbind at 1, M_bind at 1.
  match goal with
  | |- context [let '(a, w') := ?m w1 in _] =>
      destruct (m w1) as [[text ms] w2] eqn:Ht;
      assert (_job_history w2 = _job_history w1) as H2
  end.
  { destruct whisper as [h|].
    - unfold _do_transcribe in Ht. revert Ht. run_M.
      destruct (cactus_transcribe E h audio); simpl; by intros [= _ _ <-]. 
    - revert Ht. run_M. by intros [= _ _ <-]. }
  case_bool_decide; [by rewrite <- H1, <- H2|].
  run_M.
  set (w3 := World _ _ _ _).
  pose proof (route_history E [Message (Some "user") text] LOCKSMITH_TOOLS w3)
    as H3.
  destruct (route E _ LOCKSMITH_TOOLS w3) as [result w4] eqn:Hroute.
  simpl in *. set (w5 := World _ _ _ _).
  pose proof (execute_only_loop
    (enrich_calls (default [] (function_calls result)) text) w5) as [H5 _].
  destruct (for_each _ execute_only w5) as [executed w6].
  simpl in *. rewrite H5. unfold w5. simpl. rewrite H3. unfold w3. simpl.
  congruence.
Qed.

(** *** Concrete runs *)

(** Claim C10 at an environment without the speech model. *)
Lemma voice_without_transcript_witness :
  let run := process_voice_endpoint
               (Env router_down false None (λ _ _, None) clock_tenths (λ _, ""))
               some_audio fresh_world in
  vr_transcription run.1 = EmptyString ∧
  vr_function_calls run.1 = [] ∧
  vr_source run.1 = "none" ∧
  vr_routing_latency_ms run.1 = Q2Qc 0 ∧
  (∀ e, e ∈ new_events fresh_world run.2 → e = TranscribeCalled) ∧
  _job_history run.2 = _job_history fresh_world.
Proof.
  apply (voice_without_transcript
           (Env router_down false None (λ _ _, None) clock_tenths (λ _, ""))
           some_audio fresh_world).
  exact I.
Defined.

(** With a transcript the same endpoint does call the router, the fallback
    and the tool, in this order. *)
Example voice_with_transcript_trace :
  trace (process_voice_endpoint
           (env_hearing " I need a pre-job checklist " router_down)
           some_audio fresh_world).2
  = [TranscribeCalled; RouterCalled; FallbackCalled;
     ToolCalled "generate_checklist"].
Proof. by vm_compute. Qed.

(** Claim C8 fails on the voice path.  [process_voice_endpoint] never
    appends to the history, although it executes calls: for the transcript
    "I need a pre-job checklist" it runs [generate_checklist] and leaves the
    history empty, where [hybrid_endpoint] on the same text logs the call. *)
Theorem voice_endpoint_skips_history :
  (∀ E audio w,
     _job_history (process_voice_endpoint E audio w).2 = _job_history w) ∧
  let E := env_hearing "I need a pre-job checklist" router_down in
  let voice := process_voice_endpoint E some_audio fresh_world in
  let hybrid :=
    hybrid_endpoint E
      {| req_messages := [Message (Some "user") "I need a pre-job checklist"];
         req_tools := None |} fresh_world in
  e_name <$> vr_function_calls voice.1 = ["generate_checklist"] ∧
  _job_history voice.2 = [] ∧
  e_name <$> hr_function_calls hybrid.1 = ["generate_checklist"] ∧
  (e_name ∘ h_call) <$> _job_history hybrid.2 = ["generate_checklist"].
Proof.
  split; [apply voice_endpoint_history|].
  split_and!; by vm_compute.
Qed.

(** Claim C9 fails on the voice path.  When the router answers and reports
    a time, [process_voice_endpoint] returns that reported time, rounded,
    as the routing latency, not the time it measured around the routing
    step. *)
Theorem voice_endpoint_reports_router_time (E : env) (audio : upload)
    (w : world) (h : handle) (heard : string) (result : routing_result)
    (reported : Qc) :
  _whisper_model w = Some h →
  cactus_transcribe E h audio = Some (Some heard) →
  PyStr.strip heard ≠ EmptyString →
  generate_hybrid E [Message (Some "user") (PyStr.strip heard)] LOCKSMITH_TOOLS
  = Some result →
  reported_time_ms result = Some reported →
  vr_routing_latency_ms (process_voice_endpoint E audio w).1 = round1 reported.
Proof.
  intros Hmodel Hheard Htext Hroute Hreported.
  unfold process_voice_endpoint, _get_whisper, _do_transcribe, route.
  destruct w as [history model ticks trace]. simpl in Hmodel. subst model.
  run_M. rewrite Hheard. simpl.
  rewrite bool_decide_eq_false_2 by done. simpl.
  rewrite Hroute. simpl.
  destruct (for_each _ execute_only _) as [executed w']. simpl.
  by rewrite Hreported.
Qed.

(** Claim C9 at a router that reports 5 ms while 100 ms pass on the clock:
    the voice endpoint returns 5, the hybrid endpoint 100. *)
Lemma voice_endpoint_reports_router_time_witness :
  let E := env_hearing "checklist please" router_reporting_5ms in
  let w := World [] (Some 1) 0 [] in
  vr_routing_latency_ms (process_voice_endpoint E some_audio w).1 = Q2Qc 5 ∧
  round1 ((time_at E 3 - time_at E 2) * Q2Qc 1000)%Qc = Q2Qc 100 ∧
  hr_latency_ms
    (hybrid_endpoint E
       {| req_messages := [Message (Some "user") "checklist please"];
          req_tools := None |} w).1 = Q2Qc 100.
Proof.
  intros E w. split_and!.
  - rewrite (voice_endpoint_reports_router_time E some_audio w 1
               "checklist please"
               (RoutingResult (Some [Call "generate_checklist" None])
                  (Some (Q2Qc 5)) (Some "on-device")) (Q2Qc 5));
      try reflexivity.
    + apply Qc_is_canon. by vm_compute.
    + by vm_compute.
  - apply Qc_is_canon. by vm_compute.
  - apply Qc_is_canon. by vm_compute.
Defined.

(** * Further properties *)

(** * Further properties *)

(** ** Numbers *)

Lemma Qc_lt_irrefl (x : Qc) : ¬ (x < x)%Qc.
Proof. intros H. apply (Qclt_not_le _ _ H), Qcle_refl. Qed.

Lemma of_nat_le n m : n ≤ m → (of_nat n <= of_nat m)%Qc.
Proof.
  intros H. unfold of_nat, Qc_of_Z, Qcle, Q2Qc. cbn [this].
  rewrite <- Zle_Qle. lia.
Qed.

Lemma of_nat_lt n m : n < m → (of_nat n < of_nat m)%Qc.
Proof.
  intros H. unfold of_nat, Qc_of_Z, Qclt, Q2Qc. cbn [this].
  rewrite <- Zlt_Qlt. lia.
Qed.

Lemma of_nat_0 : of_nat 0 = Q2Qc 0.
Proof. by apply Qc_is_canon. Qed.

Lemma of_nat_add n m : of_nat (n + m) = (of_nat n + of_nat m)%Qc.
Proof.
  unfold of_nat, Qc_of_Z. apply Qc_is_canon.
  unfold Qcplus, Q2Qc. cbn [this].
  rewrite !Qred_correct, Nat2Z.inj_add, inject_Z_plus. reflexivity.
Qed.

Lemma of_nat_inj n m : of_nat n = of_nat m → n = m.
Proof.
  intros H. destruct (Nat.lt_trichotomy n m) as [Hlt|[?|Hlt]]; [|done|];
    apply of_nat_lt in Hlt; rewrite H in Hlt; by apply Qc_lt_irrefl in Hlt.
Qed.

Lemma of_nat_pos n : 0 < n → (Q2Qc 0 < of_nat n)%Qc.
Proof. intros H. rewrite <- of_nat_0. by apply of_nat_lt. Qed.

Lemma of_nat_nonzero n : 0 < n → of_nat n ≠ Q2Qc 0.
Proof.
  intros H Heq. apply of_nat_pos in H. rewrite Heq in H.
  by apply Qc_lt_irrefl in H.
Qed.

(** The closing arithmetic of [compute_f1] is the Dice coefficient
    2m/(a+b). *)
Lemma f1_of_counts_closed matched a b :
  0 < a → 0 < b →
  f1_of_counts matched a b
  = (Q2Qc 2 * of_nat matched / (of_nat a + of_nat b))%Qc.
Proof.
  intros Ha Hb. unfold f1_of_counts.
  pose proof (of_nat_nonzero a Ha) as Ha'.
  pose proof (of_nat_nonzero b Hb) as Hb'.
  assert (of_nat a + of_nat b ≠ Q2Qc 0)%Qc as Hab.
  { rewrite <- of_nat_add. apply of_nat_nonzero. lia. }
  destruct matched as [|m].
  - rewrite of_nat_0. rewrite bool_decide_eq_true_2 by (field; auto).
    field; auto.
  - pose proof (of_nat_nonzero (S m) ltac:(lia)) as Hm.
    assert (of_nat (S m) * of_nat b + of_nat (S m) * of_nat a ≠ Q2Qc 0)%Qc
      as Hnum.
    { intros Hz.
      assert (of_nat (S m) * (of_nat a + of_nat b) = Q2Qc 0)%Qc as Hprod
        by (rewrite <- Hz; ring).
      by apply Qcmult_integral in Hprod as [?|?]. }
    assert (of_nat (S m) / of_nat a + of_nat (S m) / of_nat b ≠ Q2Qc 0)%Qc
      as Hsum.
    { intros Hz. apply Hnum.
      assert (of_nat (S m) * of_nat b + of_nat (S m) * of_nat a
              = (of_nat (S m) / of_nat a + of_nat (S m) / of_nat b)
                * (of_nat a * of_nat b))%Qc as -> by (field; auto).
      rewrite Hz. ring. }
    rewrite bool_decide_eq_false_2 by done. field; auto.
Qed.

(** ** More on [compute_f1] *)

Lemma use_first_None f unused :
  use_first f unused = None ↔ ∀ p, p ∈ unused → f p = false.
Proof.
  induction unused as [|p ps IH]; simpl.
  - split; [by intros _ ? ?%elem_of_nil|done].
  - destruct (f p) eqn:Hf.
    + split; [done|]. intros H. rewrite H in Hf by left. done.
    + destruct (use_first f ps) as [ps'|]; simpl.
      * split; [done|]. intros H.
        assert (Some ps' = None) as [=].
        apply IH. intros q ?. apply H. by right.
      * split; [|done]. intros _ q [->|?]%elem_of_cons; [done|].
        by apply IH.
Qed.

Lemma use_first_length f unused unused' :
  use_first f unused = Some unused' → length unused = S (length unused').
Proof.
  revert unused'. induction unused as [|p ps IH]; intros unused'; simpl; [done|].
  destruct (f p); [by intros [= ->]|].
  destruct (use_first f ps) as [ps'|]; simpl; [|done].
  intros [= <-]. simpl. by rewrite (IH ps').
Qed.

Lemma greedy_matched_le_expected unused expected :
  greedy_matched unused expected ≤ length expected.
Proof.
  revert unused. induction expected as [|e es IH]; intros unused; simpl; [done|].
  destruct (use_first _ unused) as [unused'|].
  - specialize (IH unused'). lia.
  - specialize (IH unused). lia.
Qed.

Lemma greedy_matched_le_unused unused expected :
  greedy_matched unused expected ≤ length unused.
Proof.
  revert unused. induction expected as [|e es IH]; intros unused; simpl; [lia|].
  destruct (use_first _ unused) as [unused'|] eqn:Hfirst; [|done].
  apply use_first_length in Hfirst. specialize (IH unused'). lia.
Qed.

Lemma greedy_matched_zero unused expected :
  greedy_matched unused expected = 0 ↔
  ∀ p e, p ∈ unused → e ∈ expected → _call_matches p e = false.
Proof.
  induction expected as [|e es IH]; simpl.
  - split; [by intros _ ? ? ? ?%elem_of_nil|done].
  - destruct (use_first _ unused) as [unused'|] eqn:Hfirst.
    + split; [done|]. intros H.
      assert (use_first (λ p, _call_matches p e) unused = None) as Hnone.
      { apply use_first_None. intros p Hp. apply H; [done|left]. }
      congruence.
    + rewrite IH. rewrite use_first_None in Hfirst. split.
      * intros H p e' Hp [->|He']%elem_of_cons; [by apply Hfirst|by apply H].
      * intros H p e' Hp He'. apply H; [done|by right].
Qed.

Lemma _call_matches_refl c : _call_matches c c = true.
Proof.
  apply _call_matches_true. split; [done|].
  intros key v Hkey. exists v. split; [done|]. apply py_eq_refl.
Qed.

Lemma greedy_matched_self calls : greedy_matched calls calls = length calls.
Proof.
  induction calls as [|c calls IH]; simpl; [done|].
  by rewrite _call_matches_refl, IH.
Qed.

Lemma compute_f1_nonempty p ps e es :
  compute_f1 (p :: ps) (e :: es)
  = (Q2Qc 2 * of_nat (greedy_matched (p :: ps) (e :: es))
     / (of_nat (length (p :: ps)) + of_nat (length (e :: es))))%Qc.
Proof.
  change (compute_f1 (p :: ps) (e :: es))
    with (f1_of_counts (match_loop (p :: ps) (e :: es)).1
            (length (p :: ps)) (length (e :: es))).
  rewrite matched_greedy. apply f1_of_counts_closed; simpl; lia.
Qed.

Lemma Qc_div_le_1 (x y : Qc) :
  (Q2Qc 0 < y)%Qc → (x <= y)%Qc → (x / y <= Q2Qc 1)%Qc.
Proof.
  intros Hy Hxy. apply (Qcmult_lt_0_le_reg_r _ _ y Hy).
  rewrite Qcmult_1_l.
  replace (x / y * y)%Qc with x; [done|].
  field. intros ->. by apply Qc_lt_irrefl in Hy.
Qed.

Lemma Qc_div_nonneg (x y : Qc) :
  (Q2Qc 0 <= x)%Qc → (Q2Qc 0 < y)%Qc → (Q2Qc 0 <= x / y)%Qc.
Proof.
  intros Hx Hy. apply (Qcmult_lt_0_le_reg_r _ _ y Hy).
  rewrite Qcmult_0_l.
  replace (x / y * y)%Qc with x; [done|].
  field. intros ->. by apply Qc_lt_irrefl in Hy.
Qed.

Lemma Qc_div_eq_1 (x y : Qc) : y ≠ Q2Qc 0 → (x / y)%Qc = Q2Qc 1 → x = y.
Proof.
  intros Hy H.
  replace x with (x / y * y)%Qc by (by field). rewrite H. ring.
Qed.

Lemma Qc_div_eq_0 (x y : Qc) : y ≠ Q2Qc 0 → (x / y)%Qc = Q2Qc 0 → x = Q2Qc 0.
Proof.
  intros Hy H.
  replace x with (x / y * y)%Qc by (by field). rewrite H. ring.
Qed.

Lemma of_nat_double n : (Q2Qc 2 * of_nat n)%Qc = of_nat (2 * n).
Proof.
  replace (2 * n) with (n + n) by lia. rewrite of_nat_add.
  assert (Q2Qc 2 = (Q2Qc 1 + Q2Qc 1)%Qc) as -> by (by apply Qc_is_canon).
  ring.
Qed.

(** For two non-empty lists the F1 is 2m/(a+b): twice the matched count
    over the sum of the two lengths. *)
Theorem compute_f1_dice (predicted expected : list call) :
  predicted ≠ [] → expected ≠ [] →
  compute_f1 predicted expected
  = (of_nat (2 * (match_loop predicted expected).1)
     / of_nat (length predicted + length expected))%Qc.
Proof.
  intros Hp He. destruct predicted as [|p ps], expected as [|e es]; try done.
  by rewrite compute_f1_nonempty, matched_greedy, of_nat_double, of_nat_add.
Qed.

Lemma compute_f1_dice_witness :
  compute_f1 [timer {["minutes" := VInt 10]}]
             [timer {["minutes" := VInt 10]}; timer {["minutes" := VInt 5]}]
  = (of_nat 2 / of_nat 3)%Qc.
Proof.
  by rewrite compute_f1_dice.
Defined.

Lemma f1_in_unit_interval (predicted expected : list call) :
  (Q2Qc 0 <= compute_f1 predicted expected)%Qc ∧
  (compute_f1 predicted expected <= Q2Qc 1)%Qc.
Proof.
  destruct predicted as [|p ps], expected as [|e es]; try (by split).
  rewrite compute_f1_nonempty, of_nat_double, <- of_nat_add.
  pose proof (greedy_matched_le_expected (p :: ps) (e :: es)).
  pose proof (greedy_matched_le_unused (p :: ps) (e :: es)).
  split.
  - apply Qc_div_nonneg.
    + rewrite <- of_nat_0. apply of_nat_le. lia.
    + apply of_nat_pos. simpl. lia.
  - apply Qc_div_le_1.
    + apply of_nat_pos. simpl. lia.
    + apply of_nat_le. lia.
Qed.

(** The F1 lies between 0 and 1. *)
Theorem compute_f1_bounds (predicted expected : list call) :
  (Q2Qc 0 <= compute_f1 predicted expected)%Qc ∧
  (compute_f1 predicted expected <= Q2Qc 1)%Qc.
Proof. apply f1_in_unit_interval. Qed.

(** The F1 is 1 exactly when the two lists have the same length and every
    expected call found a predicted call. *)
Theorem compute_f1_one_iff (predicted expected : list call) :
  compute_f1 predicted expected = Q2Qc 1 ↔
  length predicted = length expected ∧
  (match_loop predicted expected).1 = length expected.
Proof.
  destruct predicted as [|p ps], expected as [|e es].
  - done.
  - split; [done|]. by intros [? _].
  - split; [done|]. by intros [? _].
  - rewrite compute_f1_nonempty, matched_greedy, of_nat_double, <- of_nat_add.
    pose proof (greedy_matched_le_expected (p :: ps) (e :: es)).
    pose proof (greedy_matched_le_unused (p :: ps) (e :: es)).
    assert (of_nat (length (p :: ps) + length (e :: es)) ≠ Q2Qc 0) as Hnz
      by (apply of_nat_nonzero; simpl; lia).
    split.
    + intros Hone%Qc_div_eq_1%of_nat_inj; [lia|done].
    + intros [Hlen Hm]. rewrite Hm, Hlen.
      replace (2 * length (e :: es)) with (length (e :: es) + length (e :: es))
        by lia.
      field. by rewrite <- Hlen.
Qed.

(** The F1 is 0 exactly when the lists are not both empty and no predicted
    call matches any expected call. *)
Theorem compute_f1_zero_iff (predicted expected : list call) :
  compute_f1 predicted expected = Q2Qc 0 ↔
  ¬ (predicted = [] ∧ expected = []) ∧
  ∀ p e, p ∈ predicted → e ∈ expected → _call_matches p e = false.
Proof.
  destruct predicted as [|p ps], expected as [|e es].
  - split; [done|]. by intros [[] _].
  - split; [|done]. intros _. split; [by intros [_ ?]|].
    by intros ? ? ?%elem_of_nil.
  - split; [|done]. intros _. split; [by intros [? _]|].
    by intros ? ? ? ?%elem_of_nil.
  - rewrite compute_f1_nonempty, of_nat_double, <- of_nat_add.
    rewrite <- greedy_matched_zero.
    assert (of_nat (length (p :: ps) + length (e :: es)) ≠ Q2Qc 0) as Hnz
      by (apply of_nat_nonzero; simpl; lia).
    split.
    + intros Hz%Qc_div_eq_0; [|done]. rewrite <- of_nat_0 in Hz.
      apply of_nat_inj in Hz. split; [by intros [? _]|lia].
    + intros [_ ->]. rewrite Nat.mul_0_r, of_nat_0. by field.
Qed.

Lemma f1_of_identical (calls : list call) : compute_f1 calls calls = Q2Qc 1.
Proof.
  destruct calls as [|c calls]; [done|].
  rewrite compute_f1_nonempty, greedy_matched_self, of_nat_double, <- of_nat_add.
  replace (2 * length (c :: calls)) with (length (c :: calls) + length (c :: calls))
    by lia.
  field. apply of_nat_nonzero. simpl. lia.
Qed.

(** A prediction identical to the expectation scores 1, whatever the calls
    are and however often they repeat. *)
Theorem compute_f1_self (calls : list call) : compute_f1 calls calls = Q2Qc 1.
Proof. apply f1_of_identical. Qed.

(** ** Normalization and matching *)

Section strip.
Import PyStr.
Context (p : ascii → bool).

Lemma lstrip_chars_idem s : lstrip_chars p (lstrip_chars p s) = lstrip_chars p s.
Proof.
  induction s as [|c s IH]; simpl; [done|].
  destruct (p c) eqn:Hc; [done|]. simpl. by rewrite Hc.
Qed.

Lemma rstrip_chars_cons_keep c s :
  p c = false → ∃ r, rstrip_chars p (String c s) = String c r.
Proof.
  intros Hc. simpl. destruct (rstrip_chars p s); rewrite ?Hc; eauto.
Qed.

Lemma rstrip_lstrip s :
  rstrip_chars p (lstrip_chars p s) = lstrip_chars p (rstrip_chars p s).
Proof.
  induction s as [|c s IH]; [done|].
  destruct (p c) eqn:Hc.
  - simpl. rewrite Hc, IH. destruct (rstrip_chars p s); simpl; [done|].
    by rewrite Hc.
  - destruct (rstrip_chars_cons_keep c s Hc) as [r Hr].
    change (lstrip_chars p (String c s)) with (if p c then lstrip_chars p s else String c s).
    rewrite Hc, Hr. simpl. by rewrite Hc.
Qed.

Lemma rstrip_chars_idem s : rstrip_chars p (rstrip_chars p s) = rstrip_chars p s.
Proof.
  induction s as [|c s IH]; simpl; [done|].
  destruct (rstrip_chars p s) as [|c' r] eqn:Hr.
  - destruct (p c) eqn:Hc; simpl; [done|]. by rewrite Hc.
  - simpl in *. by rewrite IH.
Qed.
End strip.

Lemma strip_idem s : PyStr.strip (PyStr.strip s) = PyStr.strip s.
Proof.
  unfold PyStr.strip.
  by rewrite rstrip_lstrip, rstrip_chars_idem, lstrip_chars_idem.
Qed.

Lemma lower_char_idem c : PyStr.lower_char (PyStr.lower_char c) = PyStr.lower_char c.
Proof. destruct c as [[] [] [] [] [] [] [] []]; reflexivity. Qed.

Lemma lower_idem s : PyStr.lower (PyStr.lower s) = PyStr.lower s.
Proof. induction s as [|c s IH]; simpl; [done|]. by rewrite lower_char_idem, IH. Qed.

Lemma normalize_spec_idem v : normalize_spec (normalize_spec v) = normalize_spec v.
Proof.
  destruct v as [s| | |]; simpl; [|done..].
  by rewrite <- !lower_strip, lower_idem, strip_idem.
Qed.

Lemma py_eq_sym a b : py_eq a b = py_eq b a.
Proof.
  destruct a as [s|x|[]|], b as [t|y|[]|]; simpl; try done;
    apply bool_decide_ext; naive_solver.
Qed.

Lemma py_eq_trans a b c : py_eq a b = true → py_eq b c = true → py_eq a c = true.
Proof.
  destruct a as [s|x|[]|], b as [t|y|[]|], c as [u|z|[]|]; simpl; try done;
    rewrite ?bool_decide_eq_true; congruence.
Qed.

(** [_call_matches] is reflexive and transitive. *)
Theorem call_matches_preorder :
  (∀ c, _call_matches c c = true) ∧
  (∀ a b c, _call_matches a b = true → _call_matches b c = true →
            _call_matches a c = true).
Proof.
  split; [apply _call_matches_refl|].
  intros a b c. rewrite !_call_matches_true.
  intros [Hab Hargs_ab] [Hbc Hargs_bc]. split; [congruence|].
  intros key vc Hc.
  destruct (Hargs_bc key vc Hc) as (vb & Hb & Hvb).
  destruct (Hargs_ab key vb Hb) as (va & Ha & Hva).
  exists va. split; [done|]. unfold normalized_equal in *.
  by apply (py_eq_trans _ (normalize_spec vb)).
Qed.

Lemma call_matches_preorder_witness :
  _call_matches
    (Call "send_message"
       (Some {["recipient" := VStr " BOB"; "message" := VStr "hi"]}))
    (Call "send_message" (Some ∅))
  = true.
Proof.
  apply (proj2 call_matches_preorder _
           (Call "send_message" (Some {["recipient" := VStr "bob"]})));
    by vm_compute.
Defined.

(** Matching does not see the letter case or the surrounding whitespace of
    string arguments: normalizing the arguments of the predicted call, or
    of the expected call, does not change the result; and normalizing
    twice is normalizing once. *)
Theorem call_matches_normalized (predicted expected : call) :
  _call_matches (normalize_call predicted) expected
  = _call_matches predicted expected ∧
  _call_matches predicted (normalize_call expected)
  = _call_matches predicted expected ∧
  (∀ v, _normalize (_normalize v) = _normalize v).
Proof.
  split_and!.
  - apply eq_true_iff_eq. rewrite !_call_matches_true.
    unfold matches_spec.
    change (get_arguments (normalize_call predicted))
      with (_normalize <$> get_arguments predicted).
    change (name (normalize_call predicted)) with (name predicted).
    apply and_iff_compat_l. split; intros H key ev Hkey.
    + destruct (H key ev Hkey) as (pv & Hpv & Heq).
      rewrite lookup_fmap in Hpv.
      destruct (get_arguments predicted !! key) as [pv'|]; [|done].
      injection Hpv as <-. exists pv'. split; [done|].
      unfold normalized_equal in *.
      by rewrite _normalize_spec, normalize_spec_idem in Heq.
    + destruct (H key ev Hkey) as (pv & Hpv & Heq).
      exists (_normalize pv). rewrite lookup_fmap, Hpv. split; [done|].
      unfold normalized_equal in *.
      by rewrite _normalize_spec, normalize_spec_idem.
  - apply eq_true_iff_eq. rewrite !_call_matches_true.
    unfold matches_spec.
    change (get_arguments (normalize_call expected))
      with (_normalize <$> get_arguments expected).
    change (name (normalize_call expected)) with (name expected).
    apply and_iff_compat_l. split; intros H key ev Hkey.
    + destruct (H key (_normalize ev)) as (pv & Hpv & Heq).
      { by rewrite lookup_fmap, Hkey. }
      exists pv. split; [done|]. unfold normalized_equal in *.
      by rewrite _normalize_spec, normalize_spec_idem in Heq.
    + rewrite lookup_fmap in Hkey.
      destruct (get_arguments expected !! key) as [ev'|] eqn:Hev; [|done].
      injection Hkey as <-.
      destruct (H key ev' Hev) as (pv & Hpv & Heq).
      exists pv. split; [done|]. unfold normalized_equal in *.
      by rewrite _normalize_spec, normalize_spec_idem.
  - intros v. by rewrite !_normalize_spec, normalize_spec_idem.
Qed.

(** ** Bounds of the composite score *)


Ltac qc_lra :=
  unfold Qcle, Qclt, Qcminus, Qcplus, Qcmult, Qcopp, Q2Qc in *;
  cbn [this] in *;
  repeat (setoid_rewrite Qred_correct);
  repeat match goal with
         | H : _ |- _ => progress (setoid_rewrite Qred_correct in H)
         end;
  lra.

Section bounds.
Local Open Scope Qc_scope.

Lemma total_lower xs :
  (∀ x, x ∈ xs → Q2Qc 0 <= x) → Q2Qc 0 <= total xs.
Proof.
  induction xs as [|x xs IH]; intros H; [by apply Qcle_refl|].
  rewrite total_cons.
  assert (Q2Qc 0 <= x) by (apply H; left).
  assert (Q2Qc 0 <= total xs) by (apply IH; intros y ?; apply H; by right).
  qc_lra.
Qed.

Lemma total_upper xs c :
  (∀ x, x ∈ xs → x <= c) → total xs <= of_nat (length xs) * c.
Proof.
  induction xs as [|x xs IH]; intros H.
  - cbn [length total foldr]. rewrite of_nat_0. qc_lra.
  - rewrite total_cons, length_cons, of_nat_S.
    assert (x <= c) by (apply H; left).
    assert (total xs <= of_nat (length xs) * c)
      by (apply IH; intros y ?; apply H; by right).
    revert H0 H1. generalize (of_nat (length xs)) (total xs). intros n t ? ?.
    assert ((n + Q2Qc 1) * c = n * c + c) as -> by ring.
    qc_lra.
Qed.

Lemma total_const xs c :
  (∀ x, x ∈ xs → x = c) → total xs = of_nat (length xs) * c.
Proof.
  induction xs as [|x xs IH]; intros H.
  - cbn [length total foldr]. rewrite of_nat_0. ring.
  - rewrite total_cons, length_cons, of_nat_S, (H x) by left.
    rewrite IH by (intros y ?; apply H; by right). ring.
Qed.

Lemma mean_lower xs :
  xs ≠ [] → (∀ x, x ∈ xs → Q2Qc 0 <= x) → Q2Qc 0 <= mean xs.
Proof.
  intros Hne H. unfold mean. apply Qc_div_nonneg; [by apply total_lower|].
  apply of_nat_pos. destruct xs; [done|simpl; lia].
Qed.

Lemma mean_upper xs c :
  xs ≠ [] → (∀ x, x ∈ xs → x <= c) → mean xs <= c.
Proof.
  intros Hne H. unfold mean.
  assert (Q2Qc 0 < of_nat (length xs)) as Hpos
    by (apply of_nat_pos; destruct xs; [done|simpl; lia]).
  apply (Qcmult_lt_0_le_reg_r _ _ _ Hpos).
  replace (total xs / of_nat (length xs) * of_nat (length xs)) with (total xs).
  - rewrite Qcmult_comm. by apply total_upper.
  - field. intros Hz. rewrite Hz in Hpos. by apply Qc_lt_irrefl in Hpos.
Qed.

Lemma mean_const xs c : xs ≠ [] → (∀ x, x ∈ xs → x = c) → mean xs = c.
Proof.
  intros Hne H. unfold mean. rewrite (total_const xs c H).
  field. apply of_nat_nonzero. destruct xs; [done|simpl; lia].
Qed.

Lemma on_device_ratio_bounds group :
  group ≠ [] →
  Q2Qc 0 <= on_device_ratio group ∧ on_device_ratio group <= Q2Qc 1.
Proof.
  intros Hne. unfold on_device_ratio.
  assert (Q2Qc 0 < of_nat (length group)) as Hpos
    by (apply of_nat_pos; destruct group; [done|simpl; lia]).
  split.
  - apply Qc_div_nonneg; [|done]. rewrite <- of_nat_0. apply of_nat_le. lia.
  - apply Qc_div_le_1; [done|]. apply of_nat_le, length_filter.
Qed.

Lemma time_score_bounds avg :
  Q2Qc 0 <= avg → Q2Qc 0 <= time_score avg ∧ time_score avg <= Q2Qc 1.
Proof.
  intros Havg. unfold time_score.
  assert (Q2Qc 0 <= avg / Q2Qc 500) as Hdiv by (by apply Qc_div_nonneg).
  revert Hdiv. generalize (avg / Q2Qc 500). intros q Hq.
  destruct (decide (Q2Qc 1 - q < Q2Qc 0)) as [Hneg|Hpos].
  - split; qc_lra.
  - apply Qcnot_lt_le in Hpos. split; qc_lra.
Qed.

Lemma tier_score_bounds a t r :
  Q2Qc 0 <= a → a <= Q2Qc 1 → Q2Qc 0 <= t →
  Q2Qc 0 <= r → r <= Q2Qc 1 →
  Q2Qc 0 <= tier_score a t r ∧ tier_score a t r <= Q2Qc 1.
Proof.
  intros ? ? Ht ? ?. unfold tier_score.
  destruct (time_score_bounds t Ht) as [? ?].
  revert H3 H4. generalize (time_score t). intros s ? ?.
  split; qc_lra.
Qed.

Lemma group_of_elem d results r :
  r ∈ group_of d results ↔ difficulty r = d ∧ r ∈ results.
Proof. unfold group_of. by rewrite list_elem_of_filter. Qed.

Lemma group_of_nonempty results d :
  tier_present results d → group_of d results ≠ [].
Proof.
  intros (r & Hr & Hd)%list.Exists_exists Hnil.
  assert (r ∈ group_of d results) as Hin by (by apply group_of_elem).
  rewrite Hnil in Hin. by apply elem_of_nil in Hin.
Qed.

Lemma tier_score_of_bounds results d :
  (∀ r, r ∈ results → plausible r) → tier_present results d →
  Q2Qc 0 <= tier_score_of results d ∧ tier_score_of results d <= Q2Qc 1.
Proof.
  intros Hok Hd. pose proof (group_of_nonempty results d Hd) as Hne.
  assert (∀ r, r ∈ group_of d results → plausible r) as Hgroup
    by (intros r [_ ?]%group_of_elem; by apply Hok).
  unfold tier_score_of.
  destruct (on_device_ratio_bounds _ Hne) as [? ?].
  apply tier_score_bounds; try done.
  - apply mean_lower; [by destruct (group_of d results)|].
    intros x (r & -> & Hr)%list_elem_of_fmap. by apply Hgroup.
  - apply mean_upper; [by destruct (group_of d results)|].
    intros x (r & -> & Hr)%list_elem_of_fmap. by apply Hgroup.
  - apply mean_lower; [by destruct (group_of d results)|].
    intros x (r & -> & Hr)%list_elem_of_fmap. by apply Hgroup.
Qed.

Lemma tier_score_of_perfect results d :
  (∀ r, r ∈ results → perfect r) → tier_present results d →
  tier_score_of results d = Q2Qc 1.
Proof.
  intros Hok Hd. pose proof (group_of_nonempty results d Hd) as Hne.
  assert (∀ r, r ∈ group_of d results → perfect r) as Hgroup
    by (intros r [_ ?]%group_of_elem; by apply Hok).
  unfold tier_score_of.
  rewrite (mean_const _ (Q2Qc 1)), (mean_const _ (Q2Qc 0)).
  - assert (on_device_ratio (group_of d results) = Q2Qc 1) as ->.
    { unfold on_device_ratio.
      assert (filter (λ r, source r = "on-device") (group_of d results)
              = group_of d results) as ->.
      { generalize Hgroup. generalize (group_of d results).
        induction l as [|r l IHl]; intros Hl; [done|].
        rewrite filter_cons_True by (apply (Hl r); left).
        rewrite IHl; [done|]. intros r' ?. apply Hl. by right. }
      field. apply of_nat_nonzero. destruct (group_of d results); [done|simpl; lia]. }
    apply Qc_is_canon. by vm_compute.
  - by destruct (group_of d results).
  - intros x (r & -> & Hr)%list_elem_of_fmap. by apply Hgroup.
  - by destruct (group_of d results).
  - intros x (r & -> & Hr)%list_elem_of_fmap. by apply Hgroup.
Qed.

(** The score as a weighted sum, from the loop. *)
Lemma compute_total_score_sum results :
  compute_total_score results
  = total ((λ '(d, weight), weight * tier_score_of results d)
           <$> filter (λ '(d, _), tier_present results d) tier_weights)
    * Q2Qc 100.
Proof.
  unfold compute_total_score. rewrite score_loop.
  unfold difficulty_weights, tier_weights. ring.
Qed.

Lemma weighted_sum_bounds results (weights : list (string * Qc)) :
  (∀ r, r ∈ results → plausible r) →
  (∀ dw, dw ∈ weights → Q2Qc 0 <= dw.2) →
  let present := filter (λ '(d, _), tier_present results d) weights in
  Q2Qc 0 <= total ((λ '(d, weight), weight * tier_score_of results d) <$> present) ∧
  total ((λ '(d, weight), weight * tier_score_of results d) <$> present)
  <= total (snd <$> present).
Proof.
  intros Hok. induction weights as [|[d w] ws IH]; intros Hw; simpl.
  - split; apply Qcle_refl.
  - rewrite filter_cons.
    destruct IH as [IHlo IHhi]; [intros dw ?; apply Hw; by right|].
    destruct (decide (tier_present results d)) as [Hd|Hd]; [|done].
    rewrite !fmap_cons, !total_cons. simpl.
    destruct (tier_score_of_bounds results d Hok Hd) as [Hlo Hhi].
    assert (Q2Qc 0 <= w) as Hw0 by (apply (Hw (d, w)); left).
    assert (Q2Qc 0 <= w * tier_score_of results d)
      by (by apply Qcmult_nonneg_nonneg).
    assert (w * tier_score_of results d <= w).
    { rewrite <- (Qcmult_1_r w) at 2. by apply Qcmult_le_mono_nonneg_l. }
    revert IHlo IHhi H H0.
    generalize (w * tier_score_of results d).
    generalize (total ((λ '(d0, weight), weight * tier_score_of results d0)
                       <$> filter (λ '(d0, _), tier_present results d0) ws)).
    generalize (total (snd <$> filter (λ '(d0, _), tier_present results d0) ws)).
    intros ? ? ? ? ? ? ?. split; qc_lra.
Qed.

Lemma present_weight_le_1 results : present_weight results <= Q2Qc 1.
Proof.
  unfold present_weight, tier_weights. rewrite !filter_cons, filter_nil.
  destruct (decide (tier_present results "easy"));
    destruct (decide (tier_present results "medium"));
    destruct (decide (tier_present results "hard")); by vm_compute.
Qed.

Lemma total_score_in_range (results : list result) :
  (∀ r, r ∈ results → plausible r) →
  Q2Qc 0 <= compute_total_score results ∧
  compute_total_score results <= Q2Qc 100 * present_weight results ∧
  Q2Qc 100 * present_weight results <= Q2Qc 100.
Proof.
  intros Hok. rewrite compute_total_score_sum.
  destruct (weighted_sum_bounds results tier_weights Hok) as [Hlo Hhi].
  { intros dw. unfold tier_weights. rewrite !elem_of_cons, elem_of_nil.
    intros [->|[->|[->|[]]]]; by vm_compute. }
  pose proof (present_weight_le_1 results) as Hone.
  unfold present_weight in *. simpl in Hlo, Hhi.
  revert Hlo Hhi Hone.
  generalize (total ((λ '(d, weight), weight * tier_score_of results d)
                     <$> filter (λ '(d, _), tier_present results d) tier_weights)).
  generalize (total (snd <$> filter (λ '(d, _), tier_present results d) tier_weights)).
  intros ? ? ? ? ?. split_and!; qc_lra.
Qed.

(** For plausible results the score lies between 0 and 100 times the sum
    of the weights of the tiers that have a case, which is at most 100. *)
Theorem compute_total_score_bounds (results : list result) :
  (∀ r, r ∈ results → plausible r) →
  Q2Qc 0 <= compute_total_score results ∧
  compute_total_score results <= Q2Qc 100 * present_weight results ∧
  Q2Qc 100 * present_weight results <= Q2Qc 100.
Proof. apply total_score_in_range. Qed.

Lemma compute_total_score_bounds_witness :
  let results := [Result "a" "easy" (Q2Qc 120) (Q2Qc 1) "on-device";
                  Result "b" "hard" (Q2Qc 900) (Q2Qc 0.5) "cloud"] in
  Q2Qc 0 <= compute_total_score results ∧
  compute_total_score results <= Q2Qc 100 * present_weight results ∧
  Q2Qc 100 * present_weight results <= Q2Qc 100.
Proof.
  intros results. apply compute_total_score_bounds.
  intros r. unfold results. rewrite !elem_of_cons, elem_of_nil.
  intros [->|[->|[]]]; split_and!; by vm_compute.
Defined.

Lemma total_score_of_perfect (results : list result) :
  (∀ r, r ∈ results → perfect r) →
  compute_total_score results = Q2Qc 100 * present_weight results.
Proof.
  intros Hok. rewrite compute_total_score_sum. unfold present_weight.
  assert (∀ weights : list (string * Qc),
            (λ '(d, weight), weight * tier_score_of results d)
              <$> filter (λ '(d, _), tier_present results d) weights
            = snd <$> filter (λ '(d, _), tier_present results d) weights) as ->.
  { induction weights as [|[d w] ws IH]; [done|].
    rewrite filter_cons. destruct (decide (tier_present results d)) as [Hd|Hd];
      [|done].
    rewrite !fmap_cons, IH. simpl.
    rewrite (tier_score_of_perfect results d Hok Hd). f_equal. ring. }
  ring.
Qed.

(** Perfect results score 100 times the sum of the weights of the tiers
    that have a case: 100 when all three tiers have one, less when a tier
    is missing. *)
Theorem compute_total_score_perfect (results : list result) :
  (∀ r, r ∈ results → perfect r) →
  compute_total_score results = Q2Qc 100 * present_weight results.
Proof. apply total_score_of_perfect. Qed.

Lemma compute_total_score_perfect_witness :
  compute_total_score
    [Result "a" "easy" (Q2Qc 0) (Q2Qc 1) "on-device";
     Result "b" "hard" (Q2Qc 0) (Q2Qc 1) "on-device"]
  = Q2Qc 70.
Proof.
  rewrite compute_total_score_perfect.
  - apply Qc_is_canon. by vm_compute.
  - intros r. rewrite !elem_of_cons, elem_of_nil.
    intros [->|[->|[]]]; split_and!; by vm_compute.
Defined.
End bounds.

(** ** [run_benchmark] *)

Lemma run_cases_length router cases results :
  run_cases router cases = inr results → length results = length cases.
Proof.
  revert results. induction cases as [|c cases IH]; intros results; simpl.
  - by intros [= <-].
  - destruct (run_case router c) as [e|r]; [done|].
    destruct (run_cases router cases) as [e|rs]; [done|].
    intros [= <-]. simpl. by rewrite (IH rs).
Qed.

Lemma run_cases_entries router cases results :
  run_cases router cases = inr results →
  Forall2 (λ case r, run_case router case = inr r) cases results.
Proof.
  revert results. induction cases as [|c cases IH]; intros results; simpl.
  - intros [= <-]. constructor.
  - destruct (run_case router c) as [e|r] eqn:Hc; [done|].
    destruct (run_cases router cases) as [e|rs]; [done|].
    intros [= <-]. constructor; [done|]. by apply IH.
Qed.

Lemma run_benchmark_cases router cases results :
  run_benchmark router cases = inr results →
  cases ≠ [] ∧ run_cases router cases = inr results.
Proof.
  unfold run_benchmark.
  destruct (run_cases router cases) as [e|rs] eqn:Hrun; [done|].
  destruct rs as [|r rs]; [done|]. intros [= <-]. split; [|done].
  intros ->. done.
Qed.

(** [run_benchmark] ends in a division by zero exactly when the list of
    cases is empty. *)
Theorem run_benchmark_empty
    (router : list message → list tool → option routing_result)
    (cases : list benchmark_case) :
  run_benchmark router cases = inl ZeroDivisionError ↔ cases = [].
Proof.
  split; [|by intros ->].
  unfold run_benchmark.
  destruct (run_cases router cases) as [e|rs] eqn:Hrun.
  - intros [= ->]. exfalso. revert Hrun. clear.
    induction cases as [|c cases IH]; simpl; [done|].
    unfold run_case.
    destruct (router _ _) as [answer|]; [|done].
    destruct (function_calls answer); [|done].
    destruct (reported_time_ms answer); [|done].
    destruct (run_cases router cases); [|done]. intros [= ->]. by apply IH.
  - apply run_cases_length in Hrun. destruct rs; [|done].
    intros _. by destruct cases.
Qed.

(** When [run_benchmark] returns, it returns one entry per case, in the
    order of the cases, with the name and the difficulty of the case, the
    F1 of the routed calls against the expected calls of the case, the
    reported time, and the source tag or ["unknown"]. *)
Theorem run_benchmark_entries
    (router : list message → list tool → option routing_result)
    (cases : list benchmark_case) (results : list result) :
  run_benchmark router cases = inr results →
  Forall2 (λ case r,
             r_name r = case_name case ∧
             difficulty r = case_difficulty case ∧
             ∃ answer calls,
               router (case_messages case) (case_tools case) = Some answer ∧
               function_calls answer = Some calls ∧
               f1 r = compute_f1 calls (expected_calls case) ∧
               reported_time_ms answer = Some (total_time_ms r) ∧
               source r = default "unknown" (routed_by answer))
          cases results.
Proof.
  intros [_ Hrun]%run_benchmark_cases.
  apply run_cases_entries in Hrun.
  eapply List.Forall2_impl; [|exact Hrun]. intros case r. unfold run_case.
  destruct (router _ _) as [answer|]; [|done].
  destruct (function_calls answer) as [calls|] eqn:Hcalls; [|done].
  destruct (reported_time_ms answer) as [time|] eqn:Htime; [|done].
  intros [= <-]. simpl. split_and!; try done. by exists answer, calls.
Qed.

Lemma run_benchmark_entries_witness :
  Forall2 (λ case r,
             r_name r = case_name case ∧
             difficulty r = case_difficulty case ∧
             ∃ answer calls,
               weather_router (case_messages case) (case_tools case)
               = Some answer ∧
               function_calls answer = Some calls ∧
               f1 r = compute_f1 calls (expected_calls case) ∧
               reported_time_ms answer = Some (total_time_ms r) ∧
               source r = default "unknown" (routed_by answer))
          [weather_case]
          [Result "weather_sf" "easy" (Q2Qc 12)
             (compute_f1
                [Call "get_weather" (Some {["location" := VStr "san francisco"]})]
                (expected_calls weather_case))
             "unknown"].
Proof.
  apply (run_benchmark_entries weather_router). reflexivity.
Defined.

Lemma run_cases_answered router cases :
  (∀ case, case ∈ cases → ∃ r, run_case router case = inr r) →
  ∃ results, run_cases router cases = inr results.
Proof.
  induction cases as [|c cases IH]; intros H; simpl; [by eexists|].
  destruct (H c) as [r ->]; [left|].
  destruct IH as [rs ->]; [intros c' ?; apply H; by right|]. by eexists.
Qed.

Lemma run_benchmark_answered router cases :
  cases ≠ [] →
  (∀ case, case ∈ cases → ∃ r, run_case router case = inr r) →
  ∃ results, run_benchmark router cases = inr results ∧
             Forall2 (λ case r, run_case router case = inr r) cases results.
Proof.
  intros Hne H. destruct (run_cases_answered router cases H) as [results Hrun].
  exists results. unfold run_benchmark. rewrite Hrun.
  pose proof (run_cases_length _ _ _ Hrun).
  split; [|by apply run_cases_entries].
  destruct results; [by destruct cases|done].
Qed.

Lemma Forall2_results_elem {A B} (R : A → B → Prop) l k y :
  Forall2 R l k → y ∈ k → ∃ x, x ∈ l ∧ R x y.
Proof.
  induction 1 as [|x y' l k HR _ IH]; [by intros ?%elem_of_nil|].
  intros [->|Hy]%elem_of_cons.
  - exists x. split; [left|done].
  - destruct (IH Hy) as (x' & ? & ?). exists x'. split; [by right|done].
Qed.

Lemma Forall2_cases_elem {A B} (R : A → B → Prop) l k x :
  Forall2 R l k → x ∈ l → ∃ y, y ∈ k ∧ R x y.
Proof.
  induction 1 as [|x' y l k HR _ IH]; [by intros ?%elem_of_nil|].
  intros [->|Hx]%elem_of_cons.
  - exists y. split; [left|done].
  - destruct (IH Hx) as (y' & ? & ?). exists y'. split; [by right|done].
Qed.

(** With a router that answers every case in a time that is not negative,
    [run_benchmark] on a list of cases that is not empty returns, and the
    score of what it returns lies between 0 and 100. *)
Theorem run_benchmark_score_range
    (router : list message → list tool → option routing_result)
    (cases : list benchmark_case) :
  cases ≠ [] → answers_in_time router cases →
  ∃ results,
    run_benchmark router cases = inr results ∧
    (Q2Qc 0 <= compute_total_score results)%Qc ∧
    (compute_total_score results <= Q2Qc 100)%Qc.
Proof.
  intros Hne Hrouter.
  destruct (run_benchmark_answered router cases Hne) as (results & Hrun & Hall).
  { intros case Hcase.
    destruct (Hrouter case Hcase) as (calls & time & tag & Hanswer & _).
    unfold run_case. rewrite Hanswer. simpl. by eexists. }
  exists results. split; [done|].
  destruct (total_score_in_range results) as (Hlo & Hmid & Hhi).
  - intros r Hr.
    destruct (Forall2_results_elem _ _ _ _ Hall Hr) as (case & Hcase & Hr').
    destruct (Hrouter case Hcase) as (calls & time & tag & Hanswer & Htime).
    unfold run_case in Hr'. rewrite Hanswer in Hr'. simpl in Hr'.
    injection Hr' as <-. unfold plausible. simpl.
    destruct (f1_in_unit_interval calls (expected_calls case)). done.
  - split; [done|]. by apply (Qcle_trans _ _ _ Hmid).
Qed.

Lemma run_benchmark_score_range_witness :
  ∃ results,
    run_benchmark weather_router [weather_case] = inr results ∧
    (Q2Qc 0 <= compute_total_score results)%Qc ∧
    (compute_total_score results <= Q2Qc 100)%Qc.
Proof.
  apply run_benchmark_score_range; [done|].
  intros case ->%list_elem_of_singleton.
  eexists _, _, _. split; [reflexivity|]. by vm_compute.
Defined.

(** With a router that answers every case with exactly the expected calls,
    at once and on-device, [run_benchmark] on a list of cases that is not
    empty returns results that score 100 times the sum of the weights of
    the tiers the cases cover: 100 when they cover easy, medium and hard. *)
Theorem run_benchmark_perfect
    (router : list message → list tool → option routing_result)
    (cases : list benchmark_case) :
  cases ≠ [] → answers_expected router cases →
  ∃ results,
    run_benchmark router cases = inr results ∧
    compute_total_score results = (Q2Qc 100 * present_weight results)%Qc ∧
    (∀ d, tier_present results d ↔ ∃ case, case ∈ cases ∧ case_difficulty case = d) ∧
    ((∀ d, d ∈ ["easy"; "medium"; "hard"] →
           ∃ case, case ∈ cases ∧ case_difficulty case = d) →
     compute_total_score results = Q2Qc 100).
Proof.
  intros Hne Hrouter.
  destruct (run_benchmark_answered router cases Hne) as (results & Hrun & Hall).
  { intros case Hcase. unfold run_case. rewrite (Hrouter case Hcase). simpl.
    by eexists. }
  exists results.
  assert (∀ case r, case ∈ cases → run_case router case = inr r →
            perfect r ∧ difficulty r = case_difficulty case) as Hperfect.
  { intros case r Hcase. unfold run_case. rewrite (Hrouter case Hcase). simpl.
    intros [= <-]. unfold perfect. simpl. by rewrite f1_of_identical. }
  assert (compute_total_score results = (Q2Qc 100 * present_weight results)%Qc)
    as Hscore.
  { apply total_score_of_perfect. intros r Hr.
    destruct (Forall2_results_elem _ _ _ _ Hall Hr) as (case & Hcase & Hr').
    by destruct (Hperfect case r Hcase Hr'). }
  assert (∀ d, tier_present results d
               ↔ ∃ case, case ∈ cases ∧ case_difficulty case = d) as Htiers.
  { intros d. unfold tier_present. rewrite list.Exists_exists. split.
    - intros (r & Hr & Hd).
      destruct (Forall2_results_elem _ _ _ _ Hall Hr) as (case & Hcase & Hr').
      exists case. split; [done|].
      destruct (Hperfect case r Hcase Hr') as [_ <-]. done.
    - intros (case & Hcase & Hd).
      destruct (Forall2_cases_elem _ _ _ _ Hall Hcase) as (r & Hr & Hr').
      exists r. split; [done|].
      destruct (Hperfect case r Hcase Hr') as [_ ->]. done. }
  split_and!; try done.
  intros Hcover. rewrite Hscore.
  unfold present_weight, tier_weights. rewrite !filter_cons, filter_nil.
  rewrite !decide_True; [apply Qc_is_canon; by vm_compute|..];
    apply Htiers, Hcover; rewrite !elem_of_cons; auto.
Qed.

Lemma run_benchmark_perfect_witness :
  ∃ results,
    run_benchmark echo_router three_cases = inr results ∧
    compute_total_score results = Q2Qc 100.
Proof.
  destruct (run_benchmark_perfect echo_router three_cases)
    as (results & Hrun & _ & _ & Hfull).
  - done.
  - intros case. unfold three_cases. rewrite !elem_of_cons, elem_of_nil.
    intros [->|[->|[->|[]]]]; reflexivity.
  - exists results. split; [done|]. apply Hfull.
    intros d. rewrite !elem_of_cons, elem_of_nil.
    intros [->|[->|[->|[]]]].
    + exists (tier_case "easy" "Paris"). split; [left|done].
    + exists (tier_case "medium" "Lima"). split; [right; left|done].
    + exists (tier_case "hard" "Oslo"). split; [do 2 right; left|done].
Defined.

(** ** The slot fillers and the enrichment *)

Lemma string_valued_empty : string_valued ∅.
Proof. apply map_Forall_empty. Qed.

Lemma string_valued_put key s args :
  string_valued args → string_valued (put key s args).
Proof. intros H. apply map_Forall_insert_2; [by exists s|done]. Qed.

Lemma string_valued_put_if key m f args :
  string_valued args → string_valued (put_if key m f args).
Proof. destruct m; [apply string_valued_put|done]. Qed.

Ltac string_valued_tac :=
  repeat first
    [ apply string_valued_empty
    | apply string_valued_put
    | apply string_valued_put_if
    | match goal with
      | |- string_valued (match ?x with _ => _ end) => destruct x
      | |- string_valued (if ?x then _ else _) => destruct x
      end ].

(** The entries of the table [_EXTRACTORS]. *)
Lemma _EXTRACTORS_cases (P : string → (string → gmap string value) → Prop) :
  P "diagnose_lock_fault" _extract_diagnose_args →
  P "log_service_report" _extract_report_args →
  P "generate_checklist" _extract_checklist_args →
  P "lookup_part" _extract_part_args →
  P "schedule_followup" _extract_followup_args →
  P "contact_dispatch" _extract_dispatch_args →
  P "generate_invoice" _extract_invoice_args →
  ∀ name extractor, _EXTRACTORS !! name = Some extractor → P name extractor.
Proof.
  intros ? ? ? ? ? ? ? name extractor Hlookup.
  apply elem_of_list_to_map_2 in Hlookup.
  rewrite !elem_of_cons, elem_of_nil in Hlookup.
  destruct Hlookup as [[= -> ->]|[[= -> ->]|[[= -> ->]|[[= -> ->]|
                       [[= -> ->]|[[= -> ->]|[[= -> ->]|[]]]]]]]]; done.
Qed.

Lemma extractors_string_valued name extractor text :
  _EXTRACTORS !! name = Some extractor → string_valued (extractor text).
Proof.
  revert name extractor.
  apply (_EXTRACTORS_cases (λ _ extractor, string_valued (extractor text)));
    [unfold _extract_diagnose_args|unfold _extract_report_args
    |unfold _extract_checklist_args|unfold _extract_part_args
    |unfold _extract_followup_args|unfold _extract_dispatch_args
    |unfold _extract_invoice_args]; string_valued_tac.
Qed.

(** Whatever the text, every value a slot filler extracts is a string. *)
Theorem extracted_values_are_strings (name : string)
    (extractor : string → gmap string value) (text key : string) (v : value) :
  _EXTRACTORS !! name = Some extractor →
  extractor text !! key = Some v →
  ∃ s, v = VStr s.
Proof.
  intros Hname Hkey.
  by apply (extractors_string_valued name extractor text Hname key v).
Qed.

Lemma extracted_values_are_strings_witness :
  ∃ s, VStr "Schlage" = VStr s.
Proof.
  apply (extracted_values_are_strings "lookup_part" _extract_part_args
           "look up a Schlage deadbolt" "brand" (VStr "Schlage")).
  - reflexivity.
  - by vm_compute.
Defined.

Ltac lookup_put :=
  unfold put_if, put;
  repeat match goal with
         | |- context [match ?x with _ => _ end] => destruct x
         end;
  rewrite ?lookup_insert_eq;
  repeat (rewrite lookup_insert_ne by done; rewrite ?lookup_insert_eq);
  eauto.

Lemma extractors_required name extractor text key :
  _EXTRACTORS !! name = Some extractor →
  key ∈ required_of name →
  (name, key) ≠ ("diagnose_lock_fault", "location") →
  is_Some (extractor text !! key).
Proof.
  intros Hname. revert key. revert name extractor Hname.
  apply (_EXTRACTORS_cases
           (λ name extractor, ∀ key, key ∈ required_of name →
              (name, key) ≠ ("diagnose_lock_fault", "location") →
              is_Some (extractor text !! key)));
    intros key Hkey Hne;
    match type of Hkey with
    | _ ∈ ?l => let r := eval vm_compute in l in change l with r in Hkey
    end;
    rewrite ?elem_of_cons, ?elem_of_nil in Hkey.
  - destruct Hkey as [->|[->|[]]]; [done|].
    unfold _extract_diagnose_args. lookup_put.
  - destruct Hkey as [->|[->|[]]]; unfold _extract_report_args; lookup_put.
  - destruct Hkey as [->|[]]; unfold _extract_checklist_args; lookup_put.
  - destruct Hkey as [->|[]]; unfold _extract_part_args; lookup_put.
  - destruct Hkey as [->|[->|[]]]; unfold _extract_followup_args; lookup_put.
  - destruct Hkey as [->|[]]; unfold _extract_dispatch_args; lookup_put.
  - destruct Hkey as [->|[->|[]]]; unfold _extract_invoice_args; lookup_put.
Qed.

(** Whatever the text, a slot filler yields every required parameter of
    its tool, as a string or a default, with one exception: the location of
    [diagnose_lock_fault] is missing when the text names none. *)
Theorem extracted_required_parameters :
  (∀ name extractor text key,
     _EXTRACTORS !! name = Some extractor →
     key ∈ required_of name →
     (name, key) ≠ ("diagnose_lock_fault", "location") →
     ∃ s, extractor text !! key = Some (VStr s)) ∧
  "location" ∈ required_of "diagnose_lock_fault" ∧
  _extract_diagnose_args "the deadbolt is jammed" !! "location" = None.
Proof.
  split_and!.
  - intros name extractor text key Hname Hkey Hne.
    destruct (extractors_required name extractor text key Hname Hkey Hne)
      as [v Hv].
    destruct (extractors_string_valued name extractor text Hname key v Hv)
      as [s ->].
    by exists s.
  - change (required_of "diagnose_lock_fault") with ["location"; "symptoms"].
    left.
  - by vm_compute.
Qed.

Lemma extracted_required_parameters_witness :
  ∃ s, _extract_followup_args "call me" !! "date" = Some (VStr s).
Proof.
  apply (proj1 extracted_required_parameters "schedule_followup").
  - reflexivity.
  - change (required_of "schedule_followup") with ["customer_name"; "date"].
    right; left.
  - done.
Defined.

Lemma enrich_extracted name extractor text :
  _EXTRACTORS !! name = Some extractor →
  _enrich_arguments name (extractor text) text = extractor text.
Proof.
  intros Hname. apply map_eq. intros k. rewrite enrich_lookup, Hname.
  destruct (extractor text !! k) as [v|] eqn:Hv; [|done].
  by destruct (fillable _).
Qed.

Lemma patterns_extractors r :
  r ∈ patterns → _EXTRACTORS !! rule_tool r = Some r.1.2.
Proof.
  unfold patterns. rewrite !elem_of_cons, elem_of_nil.
  intros [->|[->|[->|[->|[->|[->|[->|[]]]]]]]]; reflexivity.
Qed.

Lemma enrich_calls_fallback (messages : list message) (tools : list tool) :
  enrich_calls (fallback_loop messages tools).1 (user_text_of messages)
  = (fallback_loop messages tools).1.
Proof.
  unfold fallback_loop. rewrite fallback_loop_calls. simpl.
  unfold calls_of, enrich_calls. rewrite <- list_fmap_compose.
  apply list_fmap_ext. intros i r Hr.
  apply list_elem_of_lookup_2, list_elem_of_filter in Hr as [_ Hr].
  unfold rule_call. simpl. f_equal. f_equal.
  unfold get_arguments. simpl.
  by apply enrich_extracted, patterns_extractors.
Qed.

(** The enrichment step changes nothing in the calls of the keyword
    fallback: their arguments are what the slot filler extracts from the
    same text. *)
Theorem enrich_fallback_calls (messages : list message) (tools : list tool) :
  enrich_calls (fallback_loop messages tools).1 (user_text_of messages)
  = (fallback_loop messages tools).1.
Proof. apply enrich_calls_fallback. Qed.

Lemma enrich_string_valued name args text :
  string_valued args → string_valued (_enrich_arguments name args text).
Proof.
  intros Hargs key v. rewrite enrich_lookup.
  destruct (_EXTRACTORS !! name) as [extractor|] eqn:Hname; [|apply Hargs].
  destruct (extractor text !! key) as [v'|] eqn:Hv; [|apply Hargs].
  destruct (fillable _); [|apply Hargs].
  intros [= <-]. by apply (extractors_string_valued name extractor text Hname key).
Qed.

(** For a tool with a slot filler, the enriched arguments have the keys of
    the given arguments and the keys the slot filler extracts, and no
    others; and string arguments stay string arguments. *)
Theorem enrich_arguments_keys (name : string)
    (extractor : string → gmap string value)
    (args : gmap string value) (text : string) :
  _EXTRACTORS !! name = Some extractor →
  dom (_enrich_arguments name args text) = dom args ∪ dom (extractor text) ∧
  (string_valued args → string_valued (_enrich_arguments name args text)).
Proof.
  intros Hname. split; [|apply enrich_string_valued].
  apply set_eq. intros key.
  rewrite elem_of_union, !elem_of_dom, enrich_lookup, Hname.
  destruct (extractor text !! key) as [v|] eqn:Hv.
  - destruct (args !! key) as [a|]; simpl.
    + destruct (fillable a); split; eauto.
    + change (fillable (VStr EmptyString)) with true. split; eauto.
  - split; [by left|]. intros [?|[? [=]]]. done.
Qed.

Lemma enrich_arguments_keys_witness :
  dom (_enrich_arguments "contact_dispatch"
         {["reason" := VStr "flat tyre"; "eta" := VStr "soon"]}
         "send help, we need backup")
  = dom ({["reason" := VStr "flat tyre"; "eta" := VStr "soon"]}
           : gmap string value)
    ∪ dom (_extract_dispatch_args "send help, we need backup").
Proof.
  apply (enrich_arguments_keys "contact_dispatch" _extract_dispatch_args).
  reflexivity.
Defined.

(** After the enrichment of string arguments for a locksmith tool, every
    required parameter of the tool is present and a string, except that the
    location of [diagnose_lock_fault] may still be missing. *)
Theorem enriched_required_parameters (name : string)
    (extractor : string → gmap string value)
    (args : gmap string value) (text key : string) :
  _EXTRACTORS !! name = Some extractor →
  string_valued args →
  key ∈ required_of name →
  (name, key) ≠ ("diagnose_lock_fault", "location") →
  ∃ s, _enrich_arguments name args text !! key = Some (VStr s).
Proof.
  intros Hname Hargs Hkey Hne.
  destruct (extractors_required name extractor text key Hname Hkey Hne)
    as [v Hv].
  assert (is_Some (_enrich_arguments name args text !! key)) as [v' Hv'].
  { rewrite enrich_lookup, Hname, Hv.
    destruct (args !! key) as [a|]; simpl.
    - by destruct (fillable a).
    - by change (fillable (VStr EmptyString)) with true. }
  destruct (enrich_string_valued name args text Hargs key v' Hv') as [s ->].
  by exists s.
Qed.

Lemma enriched_required_parameters_witness :
  ∃ s, _enrich_arguments "generate_invoice" {["notes" := VStr "paid"]}
         "bill it" !! "customer_name" = Some (VStr s).
Proof.
  apply (enriched_required_parameters "generate_invoice" _extract_invoice_args).
  - reflexivity.
  - apply map_Forall_singleton. by eexists.
  - change (required_of "generate_invoice")
      with ["customer_name"; "service_type"]. left.
  - done.
Defined.

(** ** More on [_keyword_fallback] *)

Lemma fallback_loop_cloud tool_names user_text text_lower rules calls needs_cloud :
  (foldl (fallback_step tool_names user_text text_lower)
         (calls, needs_cloud) rules).2
  = needs_cloud || existsb (λ r, fires tool_names text_lower r && r.2) rules.
Proof.
  revert calls needs_cloud.
  induction rules as [|[[[pattern tn] extractor] is_cloud] rules IH];
    intros calls needs_cloud.
  - by rewrite orb_false_r.
  - change (foldl ?f ?a (?x :: ?l)) with (foldl f (f a x) l).
    cbn [existsb snd].
    destruct (fires tool_names text_lower (pattern, tn, extractor, is_cloud))
      eqn:Hf; unfold fires, rule_tool, rule_pattern in Hf; simpl in Hf;
      unfold fallback_step at 2; rewrite Hf, IH.
    + by destruct is_cloud, needs_cloud.
    + done.
Qed.

Lemma fallback_cloud_invoice messages tools :
  (fallback_loop messages tools).2
  = fires (list_to_set (tool_name <$> tools))
      (PyStr.lower (user_text_of messages)) invoice_rule.
Proof.
  unfold fallback_loop. rewrite fallback_loop_cloud. unfold patterns.
  cbn [existsb snd orb]. by rewrite !andb_false_r, andb_true_r, orb_false_r.
Qed.

Lemma rule_named_invoice r :
  r ∈ patterns → rule_tool r = "generate_invoice" → r = invoice_rule.
Proof.
  unfold patterns. rewrite !elem_of_cons, elem_of_nil.
  by intros [->|[->|[->|[->|[->|[->|[->|[]]]]]]]] [=].
Qed.

Lemma keyword_fallback_source_tag E messages tools w :
  routed_by (_keyword_fallback E messages tools w).1
  = Some (if (fallback_loop messages tools).2 then "cloud" else "on-device").
Proof.
  unfold _keyword_fallback, mbind, M_bind, mret, M_ret, emit, now. simpl.
  by destruct (fallback_loop messages tools).
Qed.

(** The keyword fallback tags its answer ["cloud"] exactly when it emits a
    [generate_invoice] call, and ["on-device"] otherwise. *)
Theorem keyword_fallback_source (E : env) (messages : list message)
    (tools : list tool) (w : world) :
  let answer := (_keyword_fallback E messages tools w).1 in
  let calls := default [] (function_calls answer) in
  (routed_by answer = Some "cloud" ↔
   ∃ c, c ∈ calls ∧ name c = "generate_invoice") ∧
  (routed_by answer = Some "on-device" ↔
   ∀ c, c ∈ calls → name c ≠ "generate_invoice").
Proof.
  intros answer calls. unfold calls, answer.
  rewrite keyword_fallback_result, keyword_fallback_source_tag. simpl.
  rewrite fallback_cloud_invoice.
  unfold fallback_loop. rewrite fallback_loop_calls. simpl.
  set (tool_names := list_to_set (tool_name <$> tools) : gset string).
  set (text := user_text_of messages).
  assert ((∃ c, c ∈ calls_of tool_names text (PyStr.lower text) patterns
                ∧ name c = "generate_invoice")
          ↔ fires tool_names (PyStr.lower text) invoice_rule = true) as Hiff.
  { split.
    - intros (c & Hc & Hname).
      apply calls_of_named_in in Hc as (r & Hr & Hcr & Hfires).
      rewrite <- (rule_named_invoice r Hr); [done|congruence].
    - intros Hfires. exists (rule_call text invoice_rule). split; [|done].
      unfold calls_of. apply list_elem_of_fmap_2, list_elem_of_filter.
      split; [done|]. unfold patterns, invoice_rule. do 6 right. left. }
  destruct (fires tool_names (PyStr.lower text) invoice_rule).
  - split; [by rewrite Hiff|]. split; [done|].
    intros Hnone. destruct (proj2 Hiff eq_refl) as (c & Hc & Hname).
    by destruct (Hnone c Hc).
  - split.
    + split; [done|]. by intros ?%Hiff.
    + split; [|done]. intros _ c Hc Hname.
      assert (false = true) as [=]. apply Hiff. by exists c.
Qed.

Lemma calls_of_names_sublist tool_names user_text text_lower rules :
  name <$> calls_of tool_names user_text text_lower rules
    `sublist_of` rule_tool <$> rules.
Proof.
  unfold calls_of. rewrite <- list_fmap_compose.
  change (name ∘ rule_call user_text) with rule_tool.
  apply fmap_sublist, sublist_filter.
Qed.

(** The calls of the keyword fallback come in the fixed order of its
    rules, each tool at most once, whatever the order of the catalog or of
    the words in the text. *)
Theorem keyword_fallback_order (messages : list message) (tools : list tool) :
  name <$> (fallback_loop messages tools).1
    `sublist_of` rule_tool <$> patterns ∧
  NoDup (name <$> (fallback_loop messages tools).1).
Proof.
  assert (name <$> (fallback_loop messages tools).1
            `sublist_of` rule_tool <$> patterns) as Hsub.
  { unfold fallback_loop. rewrite fallback_loop_calls.
    cbn [fst app]. apply calls_of_names_sublist. }
  split; [done|]. eapply sublist_NoDup; [apply patterns_distinct|done].
Qed.

Lemma no_rule_fires_on_nothing tool_names r :
  r ∈ patterns → fires tool_names EmptyString r = false.
Proof.
  unfold patterns. rewrite !elem_of_cons, elem_of_nil. unfold fires.
  intros [->|[->|[->|[->|[->|[->|[->|[]]]]]]]];
    apply andb_false_iff; right; by vm_compute.
Qed.

(** Without a user message the keyword fallback emits no call and tags its
    answer ["on-device"], whatever the catalog and the other messages. *)
Theorem keyword_fallback_no_user_message (E : env) (messages : list message)
    (tools : list tool) (w : world) :
  (∀ m, m ∈ messages → role m ≠ Some "user") →
  function_calls (_keyword_fallback E messages tools w).1 = Some [] ∧
  routed_by (_keyword_fallback E messages tools w).1 = Some "on-device".
Proof.
  intros Hroles.
  assert (user_text_of messages = EmptyString) as Htext.
  { unfold user_text_of.
    assert (filter (λ m, role m = Some "user") messages = []) as ->; [|done].
    induction messages as [|m ms IH]; [done|].
    rewrite filter_cons_False by (apply Hroles; left).
    apply IH. intros m' ?. apply Hroles. by right. }
  rewrite keyword_fallback_result, keyword_fallback_source_tag.
  rewrite fallback_cloud_invoice. unfold fallback_loop.
  rewrite fallback_loop_calls, Htext. simpl.
  rewrite no_rule_fires_on_nothing by (unfold patterns; do 6 right; left).
  split; [|done]. f_equal. unfold calls_of.
  assert (∀ rules, (∀ r, r ∈ rules → r ∈ patterns) →
            filter (λ r, fires (list_to_set (tool_name <$> tools)) "" r = true)
              rules = []) as ->; [|done..].
  induction rules as [|r rules IH]; intros Hsub; [done|].
  rewrite filter_cons_False.
  - apply IH. intros r' ?. apply Hsub. by right.
  - rewrite no_rule_fires_on_nothing; [done|]. apply Hsub. left.
Qed.

Lemma keyword_fallback_no_user_message_witness :
  function_calls
    (_keyword_fallback (env_hearing "" router_down)
       [Message (Some "assistant") "Your invoice is ready";
        Message None "emergency"]
       LOCKSMITH_TOOLS fresh_world).1 = Some [] ∧
  routed_by
    (_keyword_fallback (env_hearing "" router_down)
       [Message (Some "assistant") "Your invoice is ready";
        Message None "emergency"]
       LOCKSMITH_TOOLS fresh_world).1 = Some "on-device".
Proof.
  apply keyword_fallback_no_user_message.
  intros m. rewrite !elem_of_cons, elem_of_nil. by intros [->|[->|[]]].
Defined.

Lemma lower_app s t : PyStr.lower (s +:+ t) = PyStr.lower s +:+ PyStr.lower t.
Proof. induction s as [|c s IH]; simpl; [done|]. by rewrite IH. Qed.

Lemma lower_join parts :
  PyStr.lower (PyStr.join " " parts) = PyStr.join " " (PyStr.lower <$> parts).
Proof.
  induction parts as [|p [|q parts] IH]; [done..|].
  change (PyStr.join " " (p :: q :: parts))
    with (p +:+ " " +:+ PyStr.join " " (q :: parts)).
  rewrite !lower_app, IH. done.
Qed.

Lemma user_contents_lower (messages : list message) :
  content <$> filter (λ m, role m = Some "user") (lower_message <$> messages)
  = PyStr.lower <$> (content <$> filter (λ m, role m = Some "user") messages).
Proof.
  induction messages as [|m ms IH]; [done|].
  rewrite fmap_cons, !filter_cons. cbn [lower_message role].
  destruct (decide (role m = Some "user")); [|done].
  rewrite !fmap_cons, IH. done.
Qed.

Lemma user_text_of_lower messages :
  user_text_of (lower_message <$> messages) = PyStr.lower (user_text_of messages).
Proof. unfold user_text_of. by rewrite lower_join, user_contents_lower. Qed.

(** Which tools the keyword fallback activates depends on the catalog
    only through the set of its tool names, and on the user text only up
    to letter case. *)
Theorem keyword_fallback_activation (messages : list message)
    (tools tools' : list tool) :
  (∀ n, n ∈ tool_name <$> tools ↔ n ∈ tool_name <$> tools') →
  fallback_loop messages tools' = fallback_loop messages tools ∧
  name <$> (fallback_loop (lower_message <$> messages) tools).1
  = name <$> (fallback_loop messages tools).1.
Proof.
  intros Hnames. split.
  - unfold fallback_loop.
    assert ((list_to_set (tool_name <$> tools') : gset string)
            = list_to_set (tool_name <$> tools)) as ->; [|done].
    apply set_eq. intros n. rewrite !elem_of_list_to_set. by rewrite Hnames.
  - unfold fallback_loop. rewrite !fallback_loop_calls. simpl.
    rewrite user_text_of_lower, lower_idem.
    unfold calls_of. by rewrite <- !list_fmap_compose.
Qed.

Lemma keyword_fallback_activation_witness :
  fallback_loop [Message (Some "user") "EMERGENCY: send backup"]
    (reverse LOCKSMITH_TOOLS ++ LOCKSMITH_TOOLS)
  = fallback_loop [Message (Some "user") "EMERGENCY: send backup"]
      LOCKSMITH_TOOLS ∧
  name <$> (fallback_loop
              (lower_message <$> [Message (Some "user") "EMERGENCY: send backup"])
              LOCKSMITH_TOOLS).1
  = name <$> (fallback_loop [Message (Some "user") "EMERGENCY: send backup"]
                LOCKSMITH_TOOLS).1.
Proof.
  apply keyword_fallback_activation.
  intros n. rewrite fmap_app, fmap_reverse, elem_of_app, elem_of_reverse. tauto.
Defined.

(** ** More on the endpoints *)

Lemma execute_and_log_results E source_tag latency calls w :
  (for_each calls (execute_and_log E source_tag latency) w).1
  = tool_outcome <$> calls ∧
  trace (for_each calls (execute_and_log E source_tag latency) w).2
  = trace w ++ (ToolCalled ∘ name <$> calls).
Proof.
  revert w. induction calls as [|c calls IH]; intros w.
  - by rewrite app_nil_r.
  - rewrite for_each_cons, execute_and_log_run. cbn [fst snd].
    set (w1 := World _ _ _ _). destruct (IH w1) as [Hres Htr].
    rewrite Hres, Htr. unfold w1. cbn [trace].
    by rewrite !fmap_cons, <- app_assoc.
Qed.


Lemma enrich_calls_names calls text :
  name <$> enrich_calls calls text = name <$> calls.
Proof. unfold enrich_calls. by rewrite <- list_fmap_compose. Qed.

Lemma route_answers E messages tools w result :
  generate_hybrid E messages tools = Some result →
  (route E messages tools w).1 = result ∧
  trace (route E messages tools w).2 = trace w ++ [RouterCalled].
Proof. intros Hroute. unfold route. run_M. by rewrite Hroute. Qed.

Lemma route_raises E messages tools w :
  generate_hybrid E messages tools = None →
  function_calls (route E messages tools w).1
  = Some (fallback_loop messages tools).1 ∧
  routed_by (route E messages tools w).1
  = Some (if (fallback_loop messages tools).2 then "cloud" else "on-device") ∧
  trace (route E messages tools w).2
  = trace w ++ [RouterCalled; FallbackCalled].
Proof.
  intros Hroute. unfold route, _keyword_fallback. run_M. rewrite Hroute.
  simpl. destruct (fallback_loop messages tools) as [calls needs_cloud].
  simpl. by rewrite <- app_assoc.
Qed.

Lemma hybrid_endpoint_run E req w :
  let started :=
    World (_job_history w) (_whisper_model w) (S (ticks w)) (trace w) in
  let routed := route E (req_messages req) (tools_or_default req) started in
  let calls := enrich_calls (default [] (function_calls routed.1))
                 (user_text_of (req_messages req)) in
  hr_function_calls (hybrid_endpoint E req w).1 = tool_outcome <$> calls ∧
  hr_source (hybrid_endpoint E req w).1
  = default "unknown" (routed_by routed.1) ∧
  trace (hybrid_endpoint E req w).2
  = trace routed.2 ++ (ToolCalled ∘ name <$> calls).
Proof.
  intros started routed calls.
  unfold hybrid_endpoint. fold (tools_or_default req). run_M. fold started.
  unfold calls, routed.
  destruct (route E (req_messages req) (tools_or_default req) started)
    as [result w1].
  simpl. set (w2 := World _ _ _ _).
  match goal with
  | |- context [for_each ?cs (execute_and_log E ?s ?l) w2] =>
      destruct (execute_and_log_results E s l cs w2) as [Hres Htr];
      destruct (for_each cs (execute_and_log E s l) w2) as [executed w3]
  end.
  simpl in *. by rewrite Hres, Htr.
Qed.

Lemma fallback_calls_string_valued messages tools :
  Forall (λ c, string_valued (get_arguments c)) (fallback_loop messages tools).1.
Proof.
  unfold fallback_loop. rewrite fallback_loop_calls. cbn [fst app].
  apply list.Forall_forall. intros c Hc. unfold calls_of in Hc.
  apply list_elem_of_fmap in Hc as (r & -> & Hr).
  apply list_elem_of_filter in Hr as [_ Hr].
  unfold rule_call, get_arguments. cbn [arguments default].
  by apply (extractors_string_valued (rule_tool r)), patterns_extractors.
Qed.

Lemma enrich_calls_string_valued calls text :
  Forall (λ c, string_valued (get_arguments c)) calls →
  Forall (λ c, string_valued (get_arguments c)) (enrich_calls calls text).
Proof.
  intros Hcalls. unfold enrich_calls. apply Forall_fmap.
  eapply list.Forall_impl; [exact Hcalls|]. intros c Hc.
  unfold compose, get_arguments at 1. cbn [arguments default].
  by apply enrich_string_valued.
Qed.

Lemma routed_calls_string_valued E req w :
  router_answers_strings E req →
  Forall (λ c, string_valued (get_arguments c))
    (default [] (function_calls
                   (route E (req_messages req) (tools_or_default req) w).1)).
Proof.
  intros Hrouter.
  destruct (generate_hybrid E (req_messages req) (tools_or_default req))
    as [result|] eqn:Hroute.
  - destruct (route_answers E _ _ w result Hroute) as [-> _].
    by apply Hrouter.
  - destruct (route_raises E _ _ w Hroute) as (-> & _ & _).
    apply fallback_calls_string_valued.
Qed.

Lemma hybrid_endpoint_executes_strings E req w :
  router_answers_strings E req →
  Forall (λ e, string_valued (e_arguments e))
    (hr_function_calls (hybrid_endpoint E req w).1).
Proof.
  intros Hrouter.
  destruct (hybrid_endpoint_run E req w) as (-> & _ & _).
  apply Forall_fmap.
  eapply list.Forall_impl;
    [apply enrich_calls_string_valued, routed_calls_string_valued, Hrouter|].
  by intros c Hc.
Qed.

(** When the calls the router answers with have string arguments, every
    call [hybrid_endpoint] executes has string arguments, and the endpoint
    appends to the history one entry for each function call of its
    response, in the order of the response, with the source and the
    latency of the response; the entries that were in the history stay
    where they are. *)
Theorem hybrid_endpoint_logs_calls (E : env) (req : HybridRequest) (w : world) :
  router_answers_strings E req →
  Forall (λ e, string_valued (e_arguments e))
    (hr_function_calls (hybrid_endpoint E req w).1) ∧
  ∃ entries,
    _job_history (hybrid_endpoint E req w).2 = _job_history w ++ entries ∧
    h_call <$> entries = hr_function_calls (hybrid_endpoint E req w).1 ∧
    Forall (λ entry,
              h_source entry = hr_source (hybrid_endpoint E req w).1
              ∧ h_latency_ms entry = hr_latency_ms (hybrid_endpoint E req w).1)
           entries.
Proof.
  intros Hrouter. split; [by apply hybrid_endpoint_executes_strings|].
  apply hybrid_endpoint_history_latency.
Qed.

Lemma checklist_router_answers_strings messages :
  router_answers_strings (env_hearing "" router_reporting_5ms)
    {| req_messages := messages; req_tools := None |}.
Proof.
  intros result [= <-]. constructor; [|constructor]. apply map_Forall_empty.
Qed.

Lemma hybrid_endpoint_logs_calls_witness :
  Forall (λ e, string_valued (e_arguments e))
    (hr_function_calls
       (hybrid_endpoint (env_hearing "" router_reporting_5ms)
          {| req_messages := [Message (Some "user") "checklist for a rekey"];
             req_tools := None |} fresh_world).1) ∧
  ∃ entries,
    _job_history
      (hybrid_endpoint (env_hearing "" router_reporting_5ms)
         {| req_messages := [Message (Some "user") "checklist for a rekey"];
            req_tools := None |} fresh_world).2
    = _job_history fresh_world ++ entries ∧
    h_call <$> entries
    = hr_function_calls
        (hybrid_endpoint (env_hearing "" router_reporting_5ms)
           {| req_messages := [Message (Some "user") "checklist for a rekey"];
              req_tools := None |} fresh_world).1 ∧
    Forall (λ entry,
              h_source entry
              = hr_source
                  (hybrid_endpoint (env_hearing "" router_reporting_5ms)
                     {| req_messages :=
                          [Message (Some "user") "checklist for a rekey"];
                        req_tools := None |} fresh_world).1
              ∧ h_latency_ms entry
                = hr_latency_ms
                    (hybrid_endpoint (env_hearing "" router_reporting_5ms)
                       {| req_messages :=
                            [Message (Some "user") "checklist for a rekey"];
                          req_tools := None |} fresh_world).1)
           entries.
Proof.
  apply (hybrid_endpoint_logs_calls (env_hearing "" router_reporting_5ms)
           {| req_messages := [Message (Some "user") "checklist for a rekey"];
              req_tools := None |} fresh_world).
  apply checklist_router_answers_strings.
Defined.

(** When the router raises, [hybrid_endpoint] answers with the calls of
    the keyword fallback as they are, executed in their order, and with
    the source tag of the fallback; it invokes the router, the fallback and
    then one tool per call. *)
Theorem hybrid_endpoint_router_raises (E : env) (req : HybridRequest)
    (w : world) :
  generate_hybrid E (req_messages req) (tools_or_default req) = None →
  let fallback := fallback_loop (req_messages req) (tools_or_default req) in
  hr_function_calls (hybrid_endpoint E req w).1 = tool_outcome <$> fallback.1 ∧
  hr_source (hybrid_endpoint E req w).1
  = (if fallback.2 then "cloud" else "on-device") ∧
  new_events w (hybrid_endpoint E req w).2
  = RouterCalled :: FallbackCalled :: (ToolCalled ∘ name <$> fallback.1).
Proof.
  intros Hroute fallback.
  destruct (hybrid_endpoint_run E req w) as (Hcalls & Hsource & Htrace).
  set (started := World _ _ _ _) in *.
  destruct (route_raises E (req_messages req) (tools_or_default req) started
              Hroute) as (Hfc & Hrb & Htr).
  rewrite Hfc in Hcalls, Htrace. rewrite Hrb in Hsource. simpl in *.
  rewrite enrich_calls_fallback in Hcalls, Htrace.
  split_and!; [done..|].
  unfold new_events. rewrite Htrace, Htr. unfold started. cbn [trace].
  by rewrite <- !app_assoc, drop_trace_app.
Qed.

Lemma hybrid_endpoint_router_raises_witness :
  hr_function_calls
    (hybrid_endpoint (env_hearing "" router_down)
       {| req_messages := [Message (Some "user") "send backup, then bill it"];
          req_tools := Some [] |} fresh_world).1
  = tool_outcome
    <$> (fallback_loop [Message (Some "user") "send backup, then bill it"]
           LOCKSMITH_TOOLS).1 ∧
  hr_source
    (hybrid_endpoint (env_hearing "" router_down)
       {| req_messages := [Message (Some "user") "send backup, then bill it"];
          req_tools := Some [] |} fresh_world).1
  = (if (fallback_loop [Message (Some "user") "send backup, then bill it"]
           LOCKSMITH_TOOLS).2 then "cloud" else "on-device") ∧
  new_events fresh_world
    (hybrid_endpoint (env_hearing "" router_down)
       {| req_messages := [Message (Some "user") "send backup, then bill it"];
          req_tools := Some [] |} fresh_world).2
  = RouterCalled :: FallbackCalled
    :: (ToolCalled ∘ name
        <$> (fallback_loop [Message (Some "user") "send backup, then bill it"]
               LOCKSMITH_TOOLS).1).
Proof.
  apply (hybrid_endpoint_router_raises (env_hearing "" router_down)
           {| req_messages := [Message (Some "user") "send backup, then bill it"];
              req_tools := Some [] |} fresh_world).
  reflexivity.
Defined.

(** When the router answers with calls whose arguments are strings (on
    other values a handler of [execute_tool] can raise), [hybrid_endpoint]
    executes the routed calls in their order with the enriched arguments,
    reports the source tag of the router, or ["unknown"] without one, and
    does not invoke the keyword fallback. *)
Theorem hybrid_endpoint_router_answers (E : env) (req : HybridRequest)
    (w : world) (result : routing_result) :
  generate_hybrid E (req_messages req) (tools_or_default req) = Some result →
  Forall (λ c, string_valued (get_arguments c))
         (default [] (function_calls result)) →
  hr_function_calls (hybrid_endpoint E req w).1
  = tool_outcome
    <$> enrich_calls (default [] (function_calls result))
          (user_text_of (req_messages req)) ∧
  hr_source (hybrid_endpoint E req w).1 = default "unknown" (routed_by result) ∧
  new_events w (hybrid_endpoint E req w).2
  = RouterCalled
    :: (ToolCalled ∘ name <$> default [] (function_calls result)).
Proof.
  intros Hroute _.
  destruct (hybrid_endpoint_run E req w) as (Hcalls & Hsource & Htrace).
  set (started := World _ _ _ _) in *.
  destruct (route_answers E (req_messages req) (tools_or_default req) started
              result Hroute) as (Hres & Htr).
  rewrite Hres in Hcalls, Hsource, Htrace.
  split_and!; [done..|].
  unfold new_events. rewrite Htrace, Htr. unfold started. cbn [trace].
  rewrite <- !app_assoc, drop_trace_app. cbn [app]. f_equal.
  rewrite (list_fmap_compose name ToolCalled), enrich_calls_names.
  by rewrite <- list_fmap_compose.
Qed.

Lemma hybrid_endpoint_router_answers_witness :
  hr_function_calls
    (hybrid_endpoint (env_hearing "" router_reporting_5ms)
       {| req_messages := [Message (Some "user") "checklist for a rekey"];
          req_tools := None |} fresh_world).1
  = tool_outcome
    <$> enrich_calls [Call "generate_checklist" None]
          (user_text_of [Message (Some "user") "checklist for a rekey"]) ∧
  hr_source
    (hybrid_endpoint (env_hearing "" router_reporting_5ms)
       {| req_messages := [Message (Some "user") "checklist for a rekey"];
          req_tools := None |} fresh_world).1 = "on-device" ∧
  new_events fresh_world
    (hybrid_endpoint (env_hearing "" router_reporting_5ms)
       {| req_messages := [Message (Some "user") "checklist for a rekey"];
          req_tools := None |} fresh_world).2
  = [RouterCalled; ToolCalled "generate_checklist"].
Proof.
  apply (hybrid_endpoint_router_answers (env_hearing "" router_reporting_5ms)
           {| req_messages := [Message (Some "user") "checklist for a rekey"];
              req_tools := None |} fresh_world
           (RoutingResult (Some [Call "generate_checklist" None])
              (Some (Q2Qc 5)) (Some "on-device"))).
  - reflexivity.
  - constructor; [|constructor]. apply map_Forall_empty.
Defined.






Lemma filter_fmap_call (t : string) (entries : list history_entry) :
  h_call <$> filter (λ entry, e_name (h_call entry) = t) entries
  = filter (λ e, e_name e = t) (h_call <$> entries).
Proof.
  induction entries as [|entry entries IH]; [done|].
  rewrite fmap_cons, !filter_cons.
  destruct (decide (e_name (h_call entry) = t)); by rewrite ?fmap_cons, IH.
Qed.

(** When the calls the router answers with have string arguments, then
    after [hybrid_endpoint] has answered [get_history] shows what it showed
    before, followed by the calls of the response, or, with a tool name, by
    those of them with this name; the count grows by their number.  An
    empty tool name filters nothing. *)
Theorem get_history_after_hybrid (E : env) (req : HybridRequest) (w : world)
    (tool : option string) :
  router_answers_strings E req →
  let resp := (hybrid_endpoint E req w).1 in
  let w' := (hybrid_endpoint E req w).2 in
  let shown :=
    match tool with
    | Some t => if bool_decide (t = EmptyString) then hr_function_calls resp
                else filter (λ e, e_name e = t) (hr_function_calls resp)
    | None => hr_function_calls resp
    end in
  h_call <$> (get_history tool w').1.1
  = (h_call <$> (get_history tool w).1.1) ++ shown ∧
  (get_history tool w').1.2 = (get_history tool w).1.2 + length shown ∧
  (get_history tool w').2 = w' ∧
  get_history (Some EmptyString) w' = get_history None w'.
Proof.
  intros _ resp w' shown.
  destruct (hybrid_endpoint_history_latency E req w)
    as [(entries & Hhist & Hcalls & _) _].
  fold resp in Hcalls. fold w' in Hhist.
  assert (h_call <$> (get_history tool w').1.1
          = (h_call <$> (get_history tool w).1.1) ++ shown) as Hshown.
  { unfold get_history, shown. cbn [fst snd]. rewrite Hhist.
    destruct tool as [t|]; [case_bool_decide|].
    - by rewrite fmap_app, Hcalls.
    - by rewrite list.filter_app, fmap_app, (filter_fmap_call t entries), Hcalls.
    - by rewrite fmap_app, Hcalls. }
  split_and!; [done| |done|done].
  change ((get_history tool w').1.2) with (length (get_history tool w').1.1).
  change ((get_history tool w).1.2) with (length (get_history tool w).1.1).
  rewrite <- (length_fmap h_call (get_history tool w').1.1), Hshown.
  by rewrite length_app, length_fmap.
Qed.

Lemma get_history_after_hybrid_witness :
  let resp :=
    (hybrid_endpoint (env_hearing "" router_reporting_5ms)
       {| req_messages := [Message (Some "user") "checklist for a rekey"];
          req_tools := None |} fresh_world).1 in
  let w' :=
    (hybrid_endpoint (env_hearing "" router_reporting_5ms)
       {| req_messages := [Message (Some "user") "checklist for a rekey"];
          req_tools := None |} fresh_world).2 in
  h_call <$> (get_history (Some "generate_checklist") w').1.1
  = (h_call <$> (get_history (Some "generate_checklist") fresh_world).1.1)
    ++ filter (λ e, e_name e = "generate_checklist") (hr_function_calls resp) ∧
  (get_history (Some "generate_checklist") w').1.2
  = (get_history (Some "generate_checklist") fresh_world).1.2
    + length (filter (λ e, e_name e = "generate_checklist")
                (hr_function_calls resp)) ∧
  (get_history (Some "generate_checklist") w').2 = w' ∧
  get_history (Some EmptyString) w' = get_history None w'.
Proof.
  exact (get_history_after_hybrid (env_hearing "" router_reporting_5ms)
           {| req_messages := [Message (Some "user") "checklist for a rekey"];
              req_tools := None |} fresh_world (Some "generate_checklist")
           (checklist_router_answers_strings _)).
Defined.

Lemma extractors_handled name extractor :
  _EXTRACTORS !! name = Some extractor → name ∈ handler_names.
Proof.
  revert name extractor.
  apply (_EXTRACTORS_cases (λ name _, name ∈ handler_names));
    apply (bool_decide_unpack _); by vm_compute.
Qed.

(** When the router answers with calls whose arguments are strings, a
    routed call that names no locksmith tool is not rejected:
    [hybrid_endpoint] passes it to [execute_tool] with its arguments as
    they are, returns it with the unknown-tool result, and logs it. *)
Theorem hybrid_endpoint_unknown_tool (E : env) (req : HybridRequest)
    (w : world) (result : routing_result) (c : call) :
  generate_hybrid E (req_messages req) (tools_or_default req) = Some result →
  Forall (λ c, string_valued (get_arguments c))
         (default [] (function_calls result)) →
  c ∈ default [] (function_calls result) →
  name c ∉ handler_names →
  let entry := Executed (name c) (get_arguments c) (UnknownTool (name c)) in
  entry ∈ hr_function_calls (hybrid_endpoint E req w).1 ∧
  ∃ logged, logged ∈ _job_history (hybrid_endpoint E req w).2
            ∧ h_call logged = entry.
Proof.
  intros Hroute _ Hc Hname entry.
  destruct (hybrid_endpoint_run E req w) as (Hcalls & _ & _).
  set (started := World _ _ _ _) in *.
  destruct (route_answers E (req_messages req) (tools_or_default req) started
              result Hroute) as (Hres & _).
  rewrite Hres in Hcalls.
  assert (entry ∈ hr_function_calls (hybrid_endpoint E req w).1) as Hentry.
  { rewrite Hcalls. unfold enrich_calls. rewrite <- list_fmap_compose.
    apply list_elem_of_fmap. exists c. split; [|done].
    unfold compose, tool_outcome, entry. cbn [name].
    rewrite bool_decide_eq_false_2 by done.
    assert (_EXTRACTORS !! name c = None) as Hnone.
    { destruct (_EXTRACTORS !! name c) as [extractor|] eqn:Hx; [|done].
      by apply extractors_handled in Hx. }
    unfold get_arguments at 2. cbn [arguments].
    unfold _enrich_arguments. by rewrite Hnone. }
  split; [done|].
  destruct (hybrid_endpoint_history_latency E req w)
    as [(entries & Hhist & Hlogged & _) _].
  simpl in Hhist, Hlogged. rewrite <- Hlogged in Hentry.
  apply list_elem_of_fmap in Hentry as (logged & Heq & Hin).
  exists logged. split; [|done]. rewrite Hhist. apply elem_of_app. by right.
Qed.

Lemma hybrid_endpoint_unknown_tool_witness :
  Executed "get_weather" {["location" := VStr "san francisco"]}
    (UnknownTool "get_weather")
  ∈ hr_function_calls
      (hybrid_endpoint (env_hearing "" weather_router)
         {| req_messages := [Message (Some "user") "weather in SF, unknown"];
            req_tools := None |} fresh_world).1 ∧
  ∃ logged,
    logged ∈ _job_history
      (hybrid_endpoint (env_hearing "" weather_router)
         {| req_messages := [Message (Some "user") "weather in SF, unknown"];
            req_tools := None |} fresh_world).2
    ∧ h_call logged
      = Executed "get_weather" {["location" := VStr "san francisco"]}
          (UnknownTool "get_weather").
Proof.
  assert (Call "get_weather" (Some {["location" := VStr "san francisco"]})
          ∈ default []
              (function_calls
                 (RoutingResult
                    (Some [Call "get_weather"
                             (Some {["location" := VStr "san francisco"]})])
                    (Some (Q2Qc 12)) None))) as Hcall by left.
  assert ("get_weather" ∉ handler_names) as Hname.
  { apply (bool_decide_unpack _). by vm_compute. }
  assert (Forall (λ c, string_valued (get_arguments c))
            (default []
               (function_calls
                  (RoutingResult
                     (Some [Call "get_weather"
                              (Some {["location" := VStr "san francisco"]})])
                     (Some (Q2Qc 12)) None)))) as Hstrings.
  { constructor; [|constructor]. apply map_Forall_singleton. by eexists. }
  exact (hybrid_endpoint_unknown_tool (env_hearing "" weather_router)
           {| req_messages := [Message (Some "user") "weather in SF, unknown"];
              req_tools := None |} fresh_world _ _ eq_refl Hstrings Hcall Hname).
Defined.

(** ** [_get_whisper] under threads *)








(** A call that runs alone, from its first step to its last, returns what
    the sequential [_get_whisper] returns and leaves the global as it
    does. *)
Lemma get_whisper_alone (E : env) (w : world) :
  let s' := whisper_run (weights_on_disk E) (λ _, cactus_init E)
              [0; 0; 0; 0; 0]
              (WhisperState (_whisper_model w) 0 [AtCheck]) in
  ws_calls s' = [Returned (_get_whisper E w).1] ∧
  ws_model s' = _whisper_model (_get_whisper E w).2.
Proof.
  unfold _get_whisper. destruct w as [history [h|] n events]; simpl; [done|].
  destruct (weights_on_disk E); simpl; [|done].
  by destruct (cactus_init E).
Qed.
